(** * The thread-safe lazy singleton of [src/singleton]

    [Logger::getLogger] (logger.cpp, lines 15-25) hands out the one
    [Logger] of the process, building it on first demand behind a
    hand-written double-checked lock; [Logger::Log] (line 13) prints a
    message on [cout]; [main] of user.cpp starts two threads that each
    fetch the logger and log one message.

    The program is embedded as a small-step interleaving semantics: a
    thread is a program counter over the lines of logger.cpp, the shared
    state is the static pointer [Logger::loggerInstance], the static
    [Logger::mtx], the free store and the characters received by [cout];
    a scheduler picks the thread that runs its next atomic action.  Next
    to the state the semantics keeps the history of the actions executed
    so far, over which the synchronisation order of C++ (sequenced-before,
    and a mutex unlock synchronising with the later locks) is defined. *)

From Stdlib Require Import Ascii String.
From stdpp Require Import base option list strings.

Open Scope string_scope.
Open Scope list_scope.

(** * Part I: the model *)

(** ** Data *)

(** A thread identifier: the index of the thread in the pool. *)
Abbreviation tid := nat (only parsing).

(** The address of a [Logger] object.  A [Logger *] is an [option ptr],
    [None] being [nullptr]. *)
Abbreviation ptr := nat (only parsing).

(** The public operations a caller can invoke (logger.hpp, lines 17-18). *)
Inductive call :=
| GetLogger
| Log (message : string).

(** Program points.  [L17] .. [L24] are the lines of [Logger::getLogger],
    [Ctor] is the body of [Logger::Logger] (lines 8-11) with the characters
    it still has to print, [L13] the body of [Logger::Log] with the
    characters it still has to print, [Idle] the caller between two calls
    and [Thrown] a call left by an exception. *)
Inductive pc :=
| Idle
| L17
| L18
| L19
| L20_new
| Ctor (this : ptr) (pending : list ascii)
| L20_store (p : ptr)
| L22
| L24
| L13 (pending : list ascii)
| Thrown.

Record thread := Thread {
  at_pc : pc;
  todo : list call;               (* the calls the thread still has to make *)
  rets : list (option ptr)        (* the pointers getLogger returned to it *)
}.

(** The actions recorded in the history.  Reads and writes are the plain
    (non-atomic) accesses to [loggerInstance], which logger.hpp declares as
    [static Logger *loggerInstance]; the number is the source line. *)
Inductive event :=
| EvRead (line : nat) (v : option ptr)
| EvWrite (p : ptr)
| EvLock
| EvUnlock
| EvNew (p : ptr)
| EvBadAlloc
| EvOut (line : nat) (c : ascii).

Record state := State {
  loggerInstance : option ptr;    (* Logger *Logger::loggerInstance *)
  mtx : option tid;               (* mutex Logger::mtx and its owner *)
  heap_free : nat;                (* objects the free store can still hold *)
  heap_next : ptr;                (* next address operator new hands out *)
  cout : list ascii;              (* characters received by standard output *)
  hist : list (tid * event);
  threads : list thread
}.

#[global] Instance call_eq_dec : EqDecision call.
Proof. solve_decision. Defined.
#[global] Instance pc_eq_dec : EqDecision pc.
Proof. solve_decision. Defined.
#[global] Instance event_eq_dec : EqDecision event.
Proof. solve_decision. Defined.

(** ** Operations *)

(** ["\n"] *)
Definition newline : ascii := ascii_of_nat 10.

(** What [cout << "New instance created." << "\n"] sends (lines 9-10). *)
Definition ctor_text : list ascii :=
  list_ascii_of_string "New instance created." ++ [newline].

(** What [cout << message << "\n"] sends (line 13). *)
Definition log_text (message : string) : list ascii :=
  list_ascii_of_string message ++ [newline].

(** [commit t th' evs s]: thread [t] becomes [th'] and [evs] are appended
    to the history. *)
Definition commit (t : tid) (th' : thread) (evs : list event) (s : state) : state :=
  {| loggerInstance := loggerInstance s; mtx := mtx s;
     heap_free := heap_free s; heap_next := heap_next s;
     cout := cout s; hist := hist s ++ map (pair t) evs;
     threads := <[t := th']> (threads s) |}.

Definition set_slot (v : option ptr) (s : state) : state :=
  {| loggerInstance := v; mtx := mtx s;
     heap_free := heap_free s; heap_next := heap_next s;
     cout := cout s; hist := hist s; threads := threads s |}.

Definition set_mtx (o : option tid) (s : state) : state :=
  {| loggerInstance := loggerInstance s; mtx := o;
     heap_free := heap_free s; heap_next := heap_next s;
     cout := cout s; hist := hist s; threads := threads s |}.

Definition alloc (s : state) : state :=
  {| loggerInstance := loggerInstance s; mtx := mtx s;
     heap_free := pred (heap_free s); heap_next := S (heap_next s);
     cout := cout s; hist := hist s; threads := threads s |}.

Definition put (c : ascii) (s : state) : state :=
  {| loggerInstance := loggerInstance s; mtx := mtx s;
     heap_free := heap_free s; heap_next := heap_next s;
     cout := cout s ++ [c]; hist := hist s; threads := threads s |}.

Definition goto (l : pc) (th : thread) : thread :=
  {| at_pc := l; todo := todo th; rets := rets th |}.

(** One atomic action of thread [t]; [None] when [t] cannot move: it does
    not exist, has nothing left to do, waits for the mutex, or was left by
    an exception.

    - [Idle]: the caller enters its next call.  The call starts at the
      entry of the function: building the [std::string] argument of [Log]
      at the call site is not part of it.
    - [L17]: [if (loggerInstance == nullptr)], the unlocked read.
    - [L18]: [mtx.lock()], enabled only while the mutex is free.
    - [L19]: [if (loggerInstance == nullptr)], the read under the lock.
    - [L20_new]: [new Logger()] takes the storage and enters the
      constructor, or throws [std::bad_alloc] when the free store is
      exhausted; the exception leaves [getLogger] from line 20, and the
      source has no handler and no guard object between line 18 and line
      22.
    - [Ctor]: the constructor prints its text, one character per action
      (see [L13]), then returns.
    - [L20_store]: [loggerInstance = ...], the plain store.
    - [L22]: [mtx.unlock()].
    - [L24]: [return loggerInstance].
    - [L13]: [Log] prints its text, one character per action, then
      returns.  This is the least the language promises: the standard
      iostream objects may be used from several threads without a data
      race, and nothing more.  It allows more executions than the program
      has: each [<<] is one insertion, which the stream passes on as a
      single write under the lock of the C stream.  [step_ins] and
      [run_ins] below are the executions in which an insertion is not
      interrupted. *)
Definition step (t : tid) (s : state) : option state :=
  match threads s !! t with
  | None => None
  | Some th =>
    match at_pc th with
    | Idle =>
      match todo th with
      | [] => None
      | GetLogger :: k => Some (commit t (Thread L17 k (rets th)) [] s)
      | Log m :: k => Some (commit t (Thread (L13 (log_text m)) k (rets th)) [] s)
      end
    | L17 =>
      let v := loggerInstance s in
      Some (commit t (goto (if v is None then L18 else L24) th) [EvRead 17 v] s)
    | L18 =>
      match mtx s with
      | None => Some (commit t (goto L19 th) [EvLock] (set_mtx (Some t) s))
      | Some _ => None
      end
    | L19 =>
      let v := loggerInstance s in
      Some (commit t (goto (if v is None then L20_new else L22) th) [EvRead 19 v] s)
    | L20_new =>
      match heap_free s with
      | O => Some (commit t (goto Thrown th) [EvBadAlloc] s)
      | S _ =>
        let p := heap_next s in
        Some (commit t (goto (Ctor p ctor_text) th) [EvNew p] (alloc s))
      end
    | Ctor p [] => Some (commit t (goto (L20_store p) th) [] s)
    | Ctor p (c :: r) => Some (commit t (goto (Ctor p r) th) [EvOut 9 c] (put c s))
    | L20_store p => Some (commit t (goto L22 th) [EvWrite p] (set_slot (Some p) s))
    | L22 => Some (commit t (goto L24 th) [EvUnlock] (set_mtx None s))
    | L24 =>
      let v := loggerInstance s in
      Some (commit t (Thread Idle (todo th) (rets th ++ [v])) [EvRead 24 v] s)
    | L13 [] => Some (commit t (goto Idle th) [] s)
    | L13 (c :: r) => Some (commit t (goto (L13 r) th) [EvOut 13 c] (put c s))
    | Thrown => None
    end
  end.

(** An execution: the scheduler's choices, in order.  [None] when the
    schedule picks a thread that cannot move. *)
Fixpoint run (sch : list tid) (s : state) : option state :=
  match sch with
  | [] => Some s
  | t :: sch' =>
    match step t s with
    | None => None
    | Some s' => run sch' s'
    end
  end.

(** The actions that complete the insertion a thread is about to make or
    is making.  Both [cout << "New instance created." << "\n"] and
    [cout << message << "\n"] are two insertions, the text and then the
    one-character line break: of the pending characters [r] the first
    insertion is all but the last. *)
Definition burst (l : pc) : nat :=
  match l with
  | L13 r | Ctor _ r => Nat.max 1 (length r - 1)
  | _ => 1
  end.

(** One action of thread [t] when an insertion into [cout] is one
    uninterrupted write: the actions of [step] that make up the
    insertion, taken together. *)
Definition step_ins (t : tid) (s : state) : option state :=
  match threads s !! t with
  | None => None
  | Some th => run (replicate (burst (at_pc th)) t) s
  end.

(** An execution in which no insertion is interrupted. *)
Fixpoint run_ins (sch : list tid) (s : state) : option state :=
  match sch with
  | [] => Some s
  | t :: sch' =>
    match step_ins t s with
    | None => None
    | Some s' => run_ins sch' s'
    end
  end.

(** Process start: the slot is null (line 5), the mutex free (line 6),
    nothing printed, and thread [i] is about to run the calls [progs !! i].
    [free] is the number of objects the free store can hold and [base] the
    first address it hands out. *)
Definition init (free : nat) (base : ptr) (progs : list (list call)) : state :=
  {| loggerInstance := None; mtx := None;
     heap_free := free; heap_next := base;
     cout := []; hist := [];
     threads := (λ k, Thread Idle k []) <$> progs |}.

(** user.cpp: [user1Logs] and [user2Logs], run by the threads of [main]. *)
Definition user1Logs : list call := [GetLogger; Log "message from user1"].
Definition user2Logs : list call := [GetLogger; Log "message from user2"].
Definition main : list (list call) := [user1Logs; user2Logs].

(** A thread has finished when it is between calls with none left. *)
Definition finished (th : thread) : Prop := at_pc th = Idle ∧ todo th = [].
Definition all_finished (s : state) : Prop := Forall finished (threads s).

#[global] Instance finished_dec th : Decision (finished th).
Proof. unfold finished. apply _. Defined.

(** ** Observations on the history *)

(** The objects constructed so far. *)
Definition constructed (h : list (tid * event)) : list ptr :=
  omap (λ e, match e.2 with EvNew p => Some p | _ => None end) h.

Definition constructions (s : state) : nat := length (constructed (hist s)).

(** The characters printed from source line [line], by anyone. *)
Definition printed (line : nat) (h : list (tid * event)) : list ascii :=
  omap (λ e, match e.2 with
             | EvOut l c => if decide (l = line) then Some c else None
             | _ => None end) h.

(** All characters printed. *)
Definition output (h : list (tid * event)) : list ascii :=
  omap (λ e, match e.2 with EvOut _ c => Some c | _ => None end) h.

(** The actions of thread [t]. *)
Definition events_of (t : tid) (h : list (tid * event)) : list event :=
  omap (λ e, if decide (e.1 = t) then Some e.2 else None) h.

(** The characters thread [t] printed from [Log]. *)
Definition logged (t : tid) (h : list (tid * event)) : list ascii :=
  omap (λ e, match e with EvOut 13 c => Some c | _ => None end) (events_of t h).

(** ** The invariant of the double-checked lock *)

(** The program points between [mtx.lock()] and [mtx.unlock()]
    (lines 19-22). *)
Definition locked_region (l : pc) : bool :=
  match l with
  | L19 | L20_new | Ctor _ _ | L20_store _ | L22 => true
  | _ => false
  end.

(** The program points at which a thread owns the mutex: between
    [mtx.lock()] and [mtx.unlock()], and also [Thrown], where the call has
    been left by the exception of line 20 without reaching the [unlock]
    of line 22. *)
Definition holds (l : pc) : bool :=
  match l with
  | L19 | L20_new | Ctor _ _ | L20_store _ | L22 | Thrown => true
  | _ => false
  end.

(** Points reached only after the slot was seen null under the lock. *)
Definition saw_null (l : pc) : bool :=
  match l with
  | L20_new | Ctor _ _ | L20_store _ | Thrown => true
  | _ => false
  end.

(** Points reached only once the slot is set. *)
Definition saw_set (l : pc) : bool :=
  match l with
  | L22 | L24 => true
  | _ => false
  end.

(** Where the owner of the mutex stands. *)
Definition owner_pc (s : state) : option pc :=
  match mtx s with
  | None => None
  | Some t => at_pc <$> threads s !! t
  end.

(** The characters of [Log] a program point still has to print. *)
Definition pending_log (l : pc) : list ascii :=
  match l with
  | L13 r => r
  | _ => []
  end.

(** The characters the calls [k] print from [Log]. *)
Definition texts (k : list call) : list ascii :=
  k ≫= (λ c, match c with Log m => log_text m | GetLogger => [] end).

Record Inv (free0 : nat) (base : ptr) (progs : list (list call)) (s : state) : Prop := {
  inv_owner : ∀ t, mtx s = Some t →
    ∃ th, threads s !! t = Some th ∧ holds (at_pc th) = true;
  inv_holds : ∀ t th, threads s !! t = Some th →
    holds (at_pc th) = true → mtx s = Some t;
  inv_null : ∀ t th, threads s !! t = Some th →
    saw_null (at_pc th) = true → loggerInstance s = None;
  inv_set : ∀ t th, threads s !! t = Some th →
    saw_set (at_pc th) = true → is_Some (loggerInstance s);
  inv_rets : ∀ t th v, threads s !! t = Some th →
    v ∈ rets th → is_Some v ∧ v = loggerInstance s;
  inv_built :
    match loggerInstance s, owner_pc s with
    | Some p, _ => constructed (hist s) = [p] ∧ printed 9 (hist s) = ctor_text
    | None, Some (Ctor p r) =>
        constructed (hist s) = [p] ∧ printed 9 (hist s) ++ r = ctor_text
    | None, Some (L20_store p) =>
        constructed (hist s) = [p] ∧ printed 9 (hist s) = ctor_text
    | None, _ => constructed (hist s) = [] ∧ printed 9 (hist s) = []
    end;
  inv_heap : heap_free s + constructions s = free0
             ∧ heap_next s = base + constructions s;
  inv_cout : cout s = output (hist s);
  inv_logged : ∀ t th k, threads s !! t = Some th → progs !! t = Some k →
    logged t (hist s) ++ pending_log (at_pc th) ++ texts (todo th) = texts k;
  inv_length : length (threads s) = length progs
}.

(** ** Termination: the work a thread has left *)

(** The number of actions from a program point to the end of the call, on
    the longest path. *)
Definition pc_cost (l : pc) : nat :=
  match l with
  | Idle | Thrown => 0
  | L24 => 1
  | L22 => 2
  | L20_store _ => 3
  | Ctor _ r => length r + 4
  | L20_new => length ctor_text + 5
  | L19 => length ctor_text + 6
  | L18 => length ctor_text + 7
  | L17 => length ctor_text + 8
  | L13 r => length r + 1
  end.

Definition call_cost (c : call) : nat :=
  match c with
  | GetLogger => length ctor_text + 9
  | Log m => length (log_text m) + 2
  end.

Definition work (th : thread) : nat :=
  pc_cost (at_pc th) + sum_list_with call_cost (todo th).

Definition total_work (s : state) : nat := sum_list_with work (threads s).

(** [N] first-time callers. *)
Definition callers (N : nat) : list (list call) := replicate N [GetLogger].

(** ** Exceptions *)

(** No call has been left by an exception. *)
Definition NoThrow (s : state) : Prop :=
  ∀ t th, threads s !! t = Some th → at_pc th ≠ Thrown.

(** ** Calls made and calls returned *)

(** The number of [getLogger] calls in a program. *)
Definition gets (k : list call) : nat :=
  sum_list_with (λ c, match c with GetLogger => 1 | Log _ => 0 end) k.

(** Whether the program point is inside a call of [getLogger]. *)
Definition in_getLogger (l : pc) : nat :=
  match l with
  | Idle | L13 _ => 0
  | _ => 1
  end.

(** Every call of [getLogger] is pending, in progress or has returned. *)
Definition Calls (progs : list (list call)) (s : state) : Prop :=
  ∀ t th k, threads s !! t = Some th → progs !! t = Some k →
    length (rets th) + in_getLogger (at_pc th) + gets (todo th) = gets k.

(** A caller that made its one call and got [p]. *)
Definition returned (p : ptr) (th : thread) : Prop :=
  at_pc th = Idle ∧ todo th = [] ∧ rets th = [Some p].

(** ** One call among the actions of the other threads *)

(** [unblocked n t s Q]: whatever the other threads do before and between
    them, thread [t] can take its next [n] actions, none of them waits,
    and [Q] holds of the state they lead to. *)
Fixpoint unblocked (n : nat) (t : tid) (s : state) (Q : state → Prop) : Prop :=
  match n with
  | O => Q s
  | S n' =>
    ∀ others s1, t ∉ others → run others s = Some s1 →
      ∃ s2, step t s1 = Some s2 ∧ unblocked n' t s2 Q
  end.

(** ** The two threads of user.cpp *)



(** A schedule of single characters: the first thread fetches the logger
    and prints ["mess"]; the second thread then runs from start to end;
    the first thread prints the rest. *)
Definition torn_schedule : list tid :=
  replicate 31 0 ++ replicate 5 0 ++ replicate 24 1 ++ replicate 16 0.

(** ** Synchronisation order *)

(** [happens_before h i j]: the action at position [i] of the history
    happens before the action at position [j].  It is the transitive
    closure of sequenced-before (an earlier action of the same thread) and
    synchronises-with (an [unlock] of the mutex and a later [lock] of it);
    the program has no atomic object and no other synchronisation. *)
Inductive happens_before (h : list (tid * event)) : nat → nat → Prop :=
| hb_sequenced i j t a b :
    (i < j)%nat → h !! i = Some (t, a) → h !! j = Some (t, b) →
    happens_before h i j
| hb_synchronises i j t u :
    (i < j)%nat → h !! i = Some (t, EvUnlock) → h !! j = Some (u, EvLock) →
    happens_before h i j
| hb_trans i k j :
    happens_before h i k → happens_before h k j → happens_before h i j.

(** The first thread of user.cpp completes [getLogger]; then the second
    thread enters it and performs the unlocked read of line 17. *)
Definition racy_schedule : list tid := replicate 31 0 ++ [1; 1].

(** ** Order of the output *)

(** A caller needs a [Logger *] to call [Log], and [getLogger] is the only
    source of one (the constructors are private, logger.hpp lines 12-13):
    a program never starts with [Log]. *)
Definition gets_first (k : list call) : Prop :=
  match k with
  | Log _ :: _ => False
  | _ => True
  end.

(** A thread inside [Log], or about to call it, has received a logger. *)
Definition has_logger (th : thread) : Prop :=
  match at_pc th with
  | L13 _ => rets th ≠ []
  | Idle => rets th = [] → gets_first (todo th)
  | _ => True
  end.

Record Ordered (s : state) : Prop := {
  ord_threads : Forall has_logger (threads s);
  ord_silent : loggerInstance s = None → printed 13 (hist s) = [];
  ord_output : output (hist s) = printed 9 (hist s) ++ printed 13 (hist s)
}.

(** [shuffle l1 l2 l]: [l] is made of the elements of [l1] and of [l2],
    each list in its own order. *)
Inductive shuffle {A} : list A → list A → list A → Prop :=
| shuffle_nil : shuffle [] [] []
| shuffle_left x l1 l2 l : shuffle l1 l2 l → shuffle (x :: l1) l2 (x :: l)
| shuffle_right x l1 l2 l : shuffle l1 l2 l → shuffle l1 (x :: l2) (x :: l).

(** ** The reads under the lock are synchronised *)

(** What the history records about the store and the lock:
    every read of line 19 that found the slot set is ordered after the
    store; the thread that stored the pointer still stands before its
    [unlock] or has unlocked since; the owner's [lock] comes after every
    [unlock]. *)
Record Synced (s : state) : Prop := {
  syn_reads : ∀ r t p, hist s !! r = Some (t, EvRead 19 (Some p)) →
    ∃ w t', hist s !! w = Some (t', EvWrite p) ∧ happens_before (hist s) w r;
  syn_store : ∀ p, loggerInstance s = Some p →
    ∃ w t', hist s !! w = Some (t', EvWrite p)
      ∧ ((∃ th', threads s !! t' = Some th' ∧ at_pc th' = L22)
         ∨ (∃ u, (w < u)%nat ∧ hist s !! u = Some (t', EvUnlock)));
  syn_lock : ∀ t, mtx s = Some t →
    ∃ l, hist s !! l = Some (t, EvLock)
      ∧ ∀ u t', hist s !! u = Some (t', EvUnlock) → (u < l)%nat
}.

(** * Part II: the proofs *)

(** ** A first run *)

Example run_user1_alone :
  (cout <$> run (replicate 52 0) (init 1 100 main))
  = Some (ctor_text ++ log_text "message from user1").
Proof. vm_compute. reflexivity. Qed.

(** ** The invariant is inductive *)

Ltac step_cases H :=
  unfold step in H;
  repeat match type of H with
  | context [match ?x with _ => _ end] => destruct x eqn:?
  end;
  simplify_eq.

Lemma step_length t s s' : step t s = Some s' → length (threads s') = length (threads s).
Proof. intros H. step_cases H; simpl; apply length_insert. Qed.

Lemma step_is_thread t s s' : step t s = Some s' → t < length (threads s).
Proof.
  unfold step. destruct (threads s !! t) eqn:E; [|done].
  intros _. eapply lookup_lt_Some, E.
Qed.

(** The observations, one action at a time. *)
Lemma constructed_snoc h t e :
  constructed (h ++ [(t, e)])
  = constructed h ++ match e with EvNew p => [p] | _ => [] end.
Proof. unfold constructed. rewrite omap_app. by destruct e. Qed.

Lemma printed_snoc line h t e :
  printed line (h ++ [(t, e)])
  = printed line h ++ match e with
                      | EvOut l c => if decide (l = line) then [c] else []
                      | _ => []
                      end.
Proof.
  unfold printed. rewrite omap_app. destruct e; try done.
  simpl. by destruct (decide _).
Qed.

Lemma output_snoc h t e :
  output (h ++ [(t, e)])
  = output h ++ match e with EvOut _ c => [c] | _ => [] end.
Proof. unfold output. rewrite omap_app. by destruct e. Qed.

Lemma events_of_snoc t' h t e :
  events_of t' (h ++ [(t, e)])
  = events_of t' h ++ (if decide (t = t') then [e] else []).
Proof.
  unfold events_of. rewrite omap_app. simpl. by destruct (decide _).
Qed.

Lemma logged_snoc t' h t e :
  logged t' (h ++ [(t, e)])
  = logged t' h ++ (if decide (t = t')
                    then match e with EvOut 13 c => [c] | _ => [] end
                    else []).
Proof.
  unfold logged. rewrite events_of_snoc, omap_app.
  destruct (decide _); simpl; [|done].
  destruct e as [| | | | | |l c]; try done.
  do 14 (destruct l as [|l]; try done).
Qed.

Lemma saw_null_holds l : saw_null l = true → holds l = true.
Proof. by destruct l. Qed.

Section Invariant.
Context (free0 : nat) (base : ptr) (progs : list (list call)).

Lemma init_thread t th :
  threads (init free0 base progs) !! t = Some th →
  at_pc th = Idle ∧ rets th = [] ∧ progs !! t = Some (todo th).
Proof.
  simpl. rewrite list_lookup_fmap.
  destruct (progs !! t); simpl; [|done]. by intros [= <-].
Qed.

Lemma Inv_init : Inv free0 base progs (init free0 base progs).
Proof.
  split; try done.
  - intros t th (Hpc & _ & _)%init_thread. by rewrite Hpc.
  - intros t th (Hpc & _ & _)%init_thread. by rewrite Hpc.
  - intros t th v [_ [Hr _]]%init_thread. rewrite Hr. by intros ?%elem_of_nil.
  - intros t th k [Hpc [_ Hk]]%init_thread. rewrite Hpc. intros Hk'. by simplify_eq.
  - simpl. by rewrite length_fmap.
Qed.

Lemma owner_holds t s th :
  Inv free0 base progs s → threads s !! t = Some th →
  mtx s = Some t ↔ holds (at_pc th) = true.
Proof.
  intros I Hth; split.
  - intros (th' & Hth' & Hh)%(inv_owner _ _ _ _ I). by simplify_eq.
  - by apply (inv_holds _ _ _ _ I).
Qed.

(** What the invariant says about the thread that moves. *)
Ltac settle H :=
  lazymatch type of H with
  | _ ↔ true = true => apply proj2 in H; specialize (H eq_refl)
  | ?A ↔ false = true =>
    let H' := fresh in
    assert (¬ A) as H' by (intros H'; apply H in H'; discriminate H');
    clear H; rename H' into H
  | true = true → _ => specialize (H eq_refl)
  | false = true → _ => clear H
  end.

Ltac mover I :=
  match goal with
  | Ht : threads ?s !! ?t = Some ?th0, Hpc : at_pc ?th0 = _ |- _ =>
    pose proof (owner_holds _ _ _ I Ht) as Hown;
    pose proof (inv_null _ _ _ _ I _ _ Ht) as Hnull;
    pose proof (inv_set _ _ _ _ I _ _ Ht) as Hset;
    pose proof (λ v, inv_rets _ _ _ _ I _ _ v Ht) as Hrets;
    rewrite Hpc in Hown, Hnull, Hset; simpl in Hown, Hnull, Hset;
    settle Hown; settle Hnull; settle Hset
  end.

Ltac finish :=
  simpl in *; try done; try congruence;
  try (exfalso; congruence);
  try (by eauto).

Lemma Inv_step t s s' :
  Inv free0 base progs s → step t s = Some s' → Inv free0 base progs s'.
Proof.
  intros I H.
  pose proof (step_is_thread _ _ _ H) as Hlt.
  split.
  - (* inv_owner *)
    intros o Ho.
    step_cases H; simpl in *; mover I;
    (destruct (decide (t = o)) as [<-|Hne];
     [ eexists; split; [by apply list_lookup_insert_eq|]; finish
     | destruct (inv_owner _ _ _ _ I o) as (th & Hth & Hh); [congruence|];
       exists th; by rewrite list_lookup_insert_ne ]).
  - (* inv_holds *)
    intros t' th' Hth' Hh.
    pose proof (inv_holds _ _ _ _ I t') as Hh'.
    step_cases H; simpl in *; mover I;
    apply list_lookup_insert_Some in Hth' as [(<- & <- & _)|(Hne & Hth')];
    finish;
    try (specialize (Hh' _ Hth' Hh); finish).
  - (* inv_null *)
    intros t' th' Hth' Hh.
    pose proof (inv_null _ _ _ _ I t') as Hn'.
    pose proof (inv_holds _ _ _ _ I t') as Hh'.
    step_cases H; simpl in *; mover I;
    apply list_lookup_insert_Some in Hth' as [(<- & <- & _)|(Hne & Hth')];
    finish;
    try (specialize (Hn' _ Hth' Hh); finish).
    specialize (Hh' _ Hth' (saw_null_holds _ Hh)). congruence.
  - (* inv_set *)
    intros t' th' Hth' Hh.
    pose proof (inv_set _ _ _ _ I t') as Hs'.
    step_cases H; simpl in *; mover I;
    apply list_lookup_insert_Some in Hth' as [(<- & <- & _)|(Hne & Hth')];
    finish;
    try (specialize (Hs' _ Hth' Hh); finish).
  - (* inv_rets *)
    intros t' th' v Hth' Hv.
    pose proof (inv_rets _ _ _ _ I t') as Hr'.
    step_cases H; simpl in *; mover I;
    apply list_lookup_insert_Some in Hth' as [(<- & <- & _)|(Hne & Hth')];
    finish;
    try (specialize (Hr' _ _ Hth' Hv); finish).
    + destruct (Hrets _ Hv) as [[x ->] ?]; congruence.
    + destruct Hr' as [[x ->] ?]; congruence.
    + apply elem_of_app in Hv as [Hv | ->%list_elem_of_singleton]; auto.
  - (* inv_built *)
    pose proof (inv_built _ _ _ _ I) as Hb.
    unfold owner_pc in *.
    step_cases H; simpl in *; mover I;
    rewrite ?app_nil_r, ?constructed_snoc, ?printed_snoc; simpl;
    rewrite ?app_nil_r;
    repeat match goal with
    | E : loggerInstance s = _ |- _ => progress (rewrite E in * )
    | E : mtx s = Some _ |- _ => progress (rewrite E in * )
    | E : mtx s = None |- _ => progress (rewrite E in * )
    | E : threads s !! t = Some _ |- _ => progress (rewrite E in Hb)
    end; simpl in *;
    rewrite ?list_lookup_insert_eq by done; simpl;
    try match goal with
    | E : at_pc _ = _ |- _ => progress (rewrite E in Hb)
    end;
    try done.
    all: try (destruct (mtx _) as [o|];
              [rewrite list_lookup_insert_ne by congruence|]; exact Hb).
    all: rewrite <- ?app_assoc; rewrite ?app_nil_r in Hb;
      try (destruct Hb as [-> ->]); try done.
  - (* inv_heap *)
    pose proof (inv_heap _ _ _ _ I) as Hp. unfold constructions in *.
    step_cases H; simpl in *;
    rewrite ?app_nil_r, ?constructed_snoc; simpl;
    rewrite ?app_nil_r, ?length_app; simpl; try done.
    all: match goal with E : heap_free _ = _ |- _ => rewrite E in * end;
      simpl; lia.
  - (* inv_cout *)
    pose proof (inv_cout _ _ _ _ I) as Hc.
    step_cases H; simpl in *;
    rewrite ?app_nil_r, ?output_snoc; simpl;
    rewrite ?app_nil_r; congruence.
  - (* inv_logged *)
    intros t' th' k Hth' Hk.
    pose proof (inv_logged _ _ _ _ I t') as Hl.
    step_cases H; simpl in *;
    rewrite ?app_nil_r, ?logged_snoc; simpl;
    apply list_lookup_insert_Some in Hth' as [(<- & <- & _)|(Hne & Hth')];
    try (destruct (decide (t = t)); [|done]);
    try (destruct (decide (t = t')); [done|]);
    rewrite ?app_nil_r;
    match goal with
    | E : threads s !! _ = Some _ |- _ => specialize (Hl _ _ E Hk)
    end;
    repeat match goal with
    | E : at_pc _ = _ |- _ => rewrite E in Hl
    | E : todo _ = _ |- _ => rewrite E in Hl
    end;
    simpl in *; rewrite <- ?app_assoc; simpl; try done.
  - rewrite (step_length _ _ _ H). apply (inv_length _ _ _ _ I).
Qed.

End Invariant.

(** The invariant holds along every execution. *)
Lemma Inv_run free0 base progs sch s s' :
  Inv free0 base progs s → run sch s = Some s' → Inv free0 base progs s'.
Proof.
  revert s. induction sch as [|t sch IH]; simpl; intros s I H.
  - by simplify_eq.
  - destruct (step t s) as [s1|] eqn:E; [|done].
    eapply IH; [|done]. by eapply Inv_step.
Qed.

Lemma Inv_reachable free0 base progs sch s :
  run sch (init free0 base progs) = Some s → Inv free0 base progs s.
Proof. apply Inv_run, Inv_init. Qed.

Lemma run_app sch1 sch2 s :
  run (sch1 ++ sch2) s = run sch1 s ≫= run sch2.
Proof.
  revert s. induction sch1 as [|t sch1 IH]; simpl; intros s; [done|].
  by destruct (step t s).
Qed.

(** ** Termination: the work a thread has left *)

Lemma sum_list_with_insert {A} (f : A → nat) (l : list A) i x y :
  l !! i = Some x →
  sum_list_with f (<[i:=y]> l) + f x = sum_list_with f l + f y.
Proof.
  intros Hx. rewrite insert_take_drop by (by eapply lookup_lt_Some).
  rewrite <- (take_drop_middle l i x Hx) at 3.
  rewrite !sum_list_with_app. simpl. lia.
Qed.

Lemma step_work t s s' : step t s = Some s' → (total_work s' < total_work s)%nat.
Proof.
  intros H. unfold total_work.
  step_cases H; simpl;
  match goal with
  | E : threads s !! t = Some ?th |- context [<[t:=?th']> _] =>
    pose proof (sum_list_with_insert work _ _ _ th' E) as Hsum;
    assert (work th' < work th); [|lia]
  end;
  unfold work; simpl;
  repeat match goal with E : _ = _ |- _ => rewrite E end; simpl; lia.
Qed.

Lemma run_work sch s s' :
  run sch s = Some s' → (length sch + total_work s' ≤ total_work s)%nat.
Proof.
  revert s. induction sch as [|t sch IH]; simpl; intros s H.
  - by simplify_eq.
  - destruct (step t s) as [s1|] eqn:E; [|done].
    apply step_work in E. apply IH in H. lia.
Qed.

Lemma total_work_init free base progs :
  total_work (init free base progs)
  = sum_list_with (sum_list_with call_cost) progs.
Proof.
  unfold total_work; simpl. induction progs as [|k progs IH]; [done|].
  rewrite fmap_cons. simpl. by rewrite IH.
Qed.

Lemma total_work_callers free base N :
  total_work (init free base (callers N)) = N * call_cost GetLogger.
Proof.
  rewrite total_work_init. unfold callers.
  induction N as [|N IH]; simpl in *; [done|]. rewrite IH. lia.
Qed.

(** ** Consequences of the invariant *)

Section Reachable.
Context (free0 : nat) (base : ptr) (progs : list (list call)).
Implicit Types s : state.

(** At most one thread is between [lock] and [unlock]. *)
Lemma Inv_mutex s t1 t2 th1 th2 :
  Inv free0 base progs s →
  threads s !! t1 = Some th1 → threads s !! t2 = Some th2 →
  holds (at_pc th1) = true → holds (at_pc th2) = true → t1 = t2.
Proof.
  intros I H1 H2 Hh1 Hh2.
  pose proof (inv_holds _ _ _ _ I _ _ H1 Hh1).
  pose proof (inv_holds _ _ _ _ I _ _ H2 Hh2). congruence.
Qed.

Lemma Inv_constructed s :
  Inv free0 base progs s →
  match loggerInstance s with
  | Some p => constructed (hist s) = [p]
  | None => (length (constructed (hist s)) ≤ 1)%nat
  end.
Proof.
  intros I. pose proof (inv_built _ _ _ _ I) as Hb.
  destruct (loggerInstance s); [by destruct Hb|].
  destruct (owner_pc s) as [[]|]; destruct Hb as [-> _]; simpl; lia.
Qed.

Lemma Inv_constructions s :
  Inv free0 base progs s → (constructions s ≤ 1)%nat.
Proof.
  intros I%Inv_constructed. unfold constructions.
  destruct (loggerInstance s); [by rewrite I|done].
Qed.

(** Once set, the slot is never written again. *)
Lemma Inv_step_slot t s s' p :
  Inv free0 base progs s → loggerInstance s = Some p →
  step t s = Some s' → loggerInstance s' = Some p.
Proof.
  intros I Hp H.
  step_cases H; simpl in *; try done.
  match goal with
  | Ht : threads s !! t = Some ?th0 |- _ =>
    pose proof (inv_null _ _ _ _ I _ _ Ht) as Hnull
  end.
  match goal with E : at_pc _ = _ |- _ => rewrite E in Hnull end.
  specialize (Hnull eq_refl). congruence.
Qed.

Lemma Inv_run_slot sch s s' p :
  Inv free0 base progs s → loggerInstance s = Some p →
  run sch s = Some s' → loggerInstance s' = Some p.
Proof.
  revert s. induction sch as [|t sch IH]; simpl; intros s I Hp H.
  - by simplify_eq.
  - destruct (step t s) as [s1|] eqn:E; [|done].
    eapply IH; [by eapply Inv_step| by eapply Inv_step_slot |done].
Qed.

Lemma NoThrow_step t s s' :
  (0 < free0)%nat → Inv free0 base progs s → NoThrow s →
  step t s = Some s' → NoThrow s'.
Proof.
  intros Hfree I Hno H t' th' Hth'.
  pose proof (Hno t') as Hno'.
  step_cases H; simpl in *;
  apply list_lookup_insert_Some in Hth' as [(<- & <- & _)|(Hne & Hth')];
  simpl; try done; try (by eapply Hno').
  match goal with
  | Ht : threads s !! t = Some ?th0, Hpc : at_pc ?th0 = L20_new |- _ =>
    pose proof (inv_null _ _ _ _ I _ _ Ht) as Hnull;
    pose proof (inv_holds _ _ _ _ I _ _ Ht) as Hown;
    pose proof (inv_built _ _ _ _ I) as Hb;
    pose proof (inv_heap _ _ _ _ I) as [Hheap _];
    unfold owner_pc, constructions in *;
    rewrite Hpc in Hnull, Hown;
    rewrite (Hnull eq_refl), (Hown eq_refl), Ht in Hb; simpl in Hb;
    rewrite Hpc in Hb; destruct Hb as [Hb _]; rewrite Hb in Hheap
  end.
  simpl in *. lia.
Qed.

Lemma NoThrow_reachable sch s :
  (0 < free0)%nat → run sch (init free0 base progs) = Some s → NoThrow s.
Proof.
  intros Hfree.
  assert (∀ s0, Inv free0 base progs s0 → NoThrow s0 →
                run sch s0 = Some s → NoThrow s) as Hgen.
  { induction sch as [|t sch IH]; simpl; intros s0 I Hno H.
    - by simplify_eq.
    - destruct (step t s0) as [s1|] eqn:E; [|done].
      eapply IH; [by eapply Inv_step| by eapply NoThrow_step |done]. }
  apply Hgen; [apply Inv_init|].
  intros t th [Hpc _]%init_thread. by rewrite Hpc.
Qed.

(** Unless a call was left by an exception, some thread can move or all
    threads have finished: the lock never deadlocks. *)
Lemma Inv_progress s :
  Inv free0 base progs s → NoThrow s →
  (∃ t s', step t s = Some s') ∨ all_finished s.
Proof.
  intros I Hno.
  destruct (decide (all_finished s)) as [|Hnf]; [by right|left].
  destruct (mtx s) as [o|] eqn:Hm.
  - destruct (inv_owner _ _ _ _ I _ Hm) as (th & Hth & Hh).
    exists o. unfold step. rewrite Hth.
    specialize (Hno _ _ Hth).
    destruct (at_pc th) as [| | | | |? []| | | |[]|]; try done; eauto.
    destruct (heap_free s); eauto.
  - apply not_Forall_Exists in Hnf; [|apply _].
    apply Exists_exists in Hnf as (th & [t Hth]%list_elem_of_lookup & Hnf).
    assert (holds (at_pc th) = false) as Hh.
    { destruct (holds (at_pc th)) eqn:E; [|done].
      pose proof (inv_holds _ _ _ _ I _ _ Hth E). congruence. }
    exists t. unfold step. rewrite Hth, ?Hm.
    unfold finished in Hnf. simpl in Hnf.
    destruct (at_pc th) as [| | | | |? []| | | |[]|]; try done; eauto.
    destruct (todo th) as [|[] ?]; eauto. by destruct Hnf.
Qed.

End Reachable.

(** ** Calls made and calls returned *)

Lemma Calls_step progs t s s' : Calls progs s → step t s = Some s' → Calls progs s'.
Proof.
  intros C H t' th' k Hth' Hk.
  pose proof (C t') as C'.
  step_cases H; simpl in *;
  apply list_lookup_insert_Some in Hth' as [(<- & <- & _)|(Hne & Hth')];
  try (by eapply C');
  match goal with
  | E : threads s !! _ = Some _ |- _ => specialize (C' _ _ E Hk)
  end;
  repeat match goal with
  | E : at_pc _ = _ |- _ => rewrite E in C'
  | E : todo _ = _ |- _ => rewrite E in C'
  end;
  simpl in *; rewrite ?length_app; simpl; lia.
Qed.

Lemma Calls_reachable free base progs sch s :
  run sch (init free base progs) = Some s → Calls progs s.
Proof.
  assert (∀ s0, Calls progs s0 → run sch s0 = Some s → Calls progs s) as Hgen.
  { induction sch as [|t sch IH]; simpl; intros s0 C H.
    - by simplify_eq.
    - destruct (step t s0) as [s1|] eqn:E; [|done].
      eapply IH; [by eapply Calls_step|done]. }
  apply Hgen. intros t th k (Hpc & Hr & Hk)%init_thread Hk'.
  rewrite Hpc, Hr. simpl. congruence.
Qed.

(** A thread that has finished a program with a call of [getLogger] in
    it received the content of the slot, which is the one object built. *)
Lemma finished_has_logger free base progs sch s t th k :
  run sch (init free base progs) = Some s →
  threads s !! t = Some th → progs !! t = Some k →
  finished th → (0 < gets k)%nat →
  ∃ p, loggerInstance s = Some p ∧ constructed (hist s) = [p]
       ∧ length (rets th) = gets k ∧ Forall (eq (Some p)) (rets th).
Proof.
  intros Hrun Hth Hk [Hpc Htd] Hg.
  pose proof (Inv_reachable _ _ _ _ _ Hrun) as I.
  pose proof (Calls_reachable _ _ _ _ _ Hrun _ _ _ Hth Hk) as C.
  rewrite Hpc, Htd in C. simpl in C.
  destruct (rets th) as [|v r] eqn:Hr; simpl in C; [lia|].
  destruct (inv_rets _ _ _ _ I t th v Hth) as [[p ->] Hp]; [rewrite Hr; by left|].
  exists p. pose proof (Inv_constructed _ _ _ _ I) as Hc. rewrite <- Hp in Hc.
  split; [done|]. split; [done|]. split; [simpl; lia|].
  apply Forall_forall. intros v Hv.
  destruct (inv_rets _ _ _ _ I t th v Hth) as [_ ->]; [by rewrite Hr|]. done.
Qed.

(** Once every one of [N ≥ 1] first-time callers has finished, one
    [Logger] was built and each caller holds its address. *)
Lemma callers_finished free base N sch s :
  (0 < N)%nat → run sch (init free base (callers N)) = Some s →
  all_finished s →
  ∃ p, constructed (hist s) = [p] ∧ loggerInstance s = Some p
       ∧ length (threads s) = N ∧ Forall (returned p) (threads s).
Proof.
  intros HN Hrun Hfin.
  pose proof (Inv_reachable _ _ _ _ _ Hrun) as I.
  pose proof (Calls_reachable _ _ _ _ _ Hrun) as C.
  assert (length (threads s) = N) as Hlen.
  { rewrite (inv_length _ _ _ _ I). apply length_replicate. }
  assert (∀ t th, threads s !! t = Some th →
                  at_pc th = Idle ∧ todo th = []
                  ∧ rets th = [loggerInstance s] ∧ is_Some (loggerInstance s))
    as Hall.
  { intros t th Hth.
    assert (finished th) as [Hpc Htd].
    { eapply Forall_lookup in Hfin; eauto. }
    assert (callers N !! t = Some [GetLogger]) as Hk.
    { apply lookup_replicate_2. rewrite <- Hlen. by eapply lookup_lt_Some. }
    specialize (C _ _ _ Hth Hk). rewrite Hpc, Htd in C. simpl in C.
    destruct (rets th) as [|v [|]] eqn:Hr; simpl in C; try lia.
    destruct (inv_rets _ _ _ _ I t th v Hth) as [? ->]; [rewrite Hr; by left|].
    done. }
  destruct (lookup_lt_is_Some_2 (threads s) 0) as [th0 Hth0]; [lia|].
  destruct (Hall _ _ Hth0) as (_ & _ & _ & [p Hp]).
  exists p. pose proof (Inv_constructed _ _ _ _ I) as Hc. rewrite Hp in Hc.
  repeat split; try done.
  apply Forall_lookup. intros t th Hth.
  destruct (Hall _ _ Hth) as (? & ? & ? & _). unfold returned. by rewrite <- Hp.
Qed.

(** ** The claims *)

(** C1. [N ≥ 2] threads call [getLogger] for the first time, in any
    interleaving, with room in the free store for the [Logger].  Then at
    every moment at most one [Logger] has been constructed; the execution
    takes at most [N * call_cost GetLogger] actions; and as long as some
    caller has not returned some thread can move, so that every execution
    runs on to the state in which exactly one [Logger] was constructed and
    each of the [N] callers has returned its address. *)
Theorem getLogger_constructs_once N free base sch s :
  (2 ≤ N)%nat → (0 < free)%nat →
  run sch (init free base (callers N)) = Some s →
  (constructions s ≤ 1)%nat
  ∧ (length sch ≤ N * call_cost GetLogger)%nat
  ∧ ((∃ t s', step t s = Some s')
     ∨ (∃ p, constructed (hist s) = [p] ∧ loggerInstance s = Some p
             ∧ length (threads s) = N ∧ Forall (returned p) (threads s))).
Proof.
  intros HN Hfree Hrun.
  pose proof (Inv_reachable _ _ _ _ _ Hrun) as I.
  split; [by eapply Inv_constructions|]. split.
  - pose proof (run_work _ _ _ Hrun) as Hw.
    rewrite total_work_callers in Hw. lia.
  - destruct (Inv_progress _ _ _ _ I) as [?|Hfin]; [|by left|right].
    + by eapply NoThrow_reachable.
    + eapply callers_finished; [|done..]. lia.
Qed.

(** Two first-time callers, the second scheduled while the first is
    inside the constructor. *)
Lemma getLogger_constructs_once_witness :
  ∃ s, run ([0; 0; 0; 0; 0; 0; 1; 1; 0; 0]) (init 1 7 (callers 2)) = Some s
       ∧ (constructions s ≤ 1)%nat
       ∧ (length [0; 0; 0; 0; 0; 0; 1; 1; 0; 0] ≤ 2 * call_cost GetLogger)%nat
       ∧ ((∃ t s', step t s = Some s')
          ∨ (∃ p, constructed (hist s) = [p] ∧ loggerInstance s = Some p
                  ∧ length (threads s) = 2 ∧ Forall (returned p) (threads s))).
Proof.
  eexists. split; [vm_compute; reflexivity|].
  apply (getLogger_constructs_once 2 1 7 [0; 0; 0; 0; 0; 0; 1; 1; 0; 0]);
    [lia | lia | vm_compute; reflexivity].
Defined.

(** C2. Once [loggerInstance] holds a non-null pointer no action of any
    thread changes it, and every pointer [getLogger] has returned or will
    return, to any thread, is that pointer. *)
Theorem slot_identity_stable free base progs sch1 sch2 s s' p :
  run sch1 (init free base progs) = Some s →
  loggerInstance s = Some p →
  run sch2 s = Some s' →
  loggerInstance s' = Some p
  ∧ ∀ t th v, threads s' !! t = Some th → v ∈ rets th → v = Some p.
Proof.
  intros Hrun Hp Hrun'.
  pose proof (Inv_reachable _ _ _ _ _ Hrun) as I.
  pose proof (Inv_run _ _ _ _ _ _ I Hrun') as I'.
  pose proof (Inv_run_slot _ _ _ _ _ _ _ I Hp Hrun') as Hp'.
  split; [done|]. intros t th v Hth Hv.
  destruct (inv_rets _ _ _ _ I' _ _ _ Hth Hv) as [_ ->]. done.
Qed.

(** The two threads of user.cpp: the first finishes [getLogger], then the
    second calls it. *)
Lemma slot_identity_stable_witness :
  ∃ s s' p,
    run (replicate 31 0) (init 1 7 main) = Some s
    ∧ loggerInstance s = Some p
    ∧ run [1; 1; 1] s = Some s'
    ∧ loggerInstance s' = Some p
    ∧ ∀ t th v, threads s' !! t = Some th → v ∈ rets th → v = Some p.
Proof.
  eexists _, _, 7.
  split; [vm_compute; reflexivity|].
  split; [reflexivity|].
  split; [vm_compute; reflexivity|].
  eapply (slot_identity_stable 1 7 main (replicate 31 0) [1; 1; 1]);
    [vm_compute; reflexivity | reflexivity | vm_compute; reflexivity].
Defined.

(** C7. With room in the free store for the [Logger], no call of
    [getLogger] is left by an exception, and no call returns [nullptr]:
    every pointer returned is the non-null content of the slot. *)
Theorem getLogger_never_null free base progs sch s :
  (0 < free)%nat →
  run sch (init free base progs) = Some s →
  ∀ t th, threads s !! t = Some th →
    at_pc th ≠ Thrown
    ∧ ∀ v, v ∈ rets th → v ≠ None ∧ v = loggerInstance s.
Proof.
  intros Hfree Hrun t th Hth.
  pose proof (Inv_reachable _ _ _ _ _ Hrun) as I.
  split; [by eapply NoThrow_reachable|].
  intros v Hv. destruct (inv_rets _ _ _ _ I _ _ _ Hth Hv) as [[x ->] Hs].
  done.
Qed.

Lemma getLogger_never_null_witness :
  ∃ s, run (replicate 31 0 ++ [1; 1; 1]) (init 1 7 main) = Some s
       ∧ ∀ t th, threads s !! t = Some th →
           at_pc th ≠ Thrown
           ∧ ∀ v, v ∈ rets th → v ≠ None ∧ v = loggerInstance s.
Proof.
  eexists. split; [vm_compute; reflexivity|].
  apply (getLogger_never_null 1 7 main (replicate 31 0 ++ [1; 1; 1]));
    [lia | vm_compute; reflexivity].
Defined.

(** ** One call among the actions of the other threads *)

Lemma step_other t t' s s' :
  t ≠ t' → step t' s = Some s' →
  threads s' !! t = threads s !! t
  ∧ events_of t (hist s') = events_of t (hist s).
Proof.
  intros Hne H.
  step_cases H; simpl;
  rewrite ?app_nil_r, ?events_of_snoc, list_lookup_insert_ne by done;
  rewrite ?decide_False by done; rewrite ?app_nil_r; done.
Qed.

Lemma run_others t others s s' :
  t ∉ others → run others s = Some s' →
  threads s' !! t = threads s !! t
  ∧ events_of t (hist s') = events_of t (hist s).
Proof.
  revert s. induction others as [|t' o IH]; simpl; intros s Hno H.
  - by simplify_eq.
  - destruct (step t' s) as [s1|] eqn:E; [|done].
    apply not_elem_of_cons in Hno as [Hne Hno].
    destruct (IH _ Hno H) as [-> ->]. by eapply step_other.
Qed.

Lemma unblocked_mono n t s (Q Q' : state → Prop) :
  (∀ s', Q s' → Q' s') → unblocked n t s Q → unblocked n t s Q'.
Proof.
  intros HQ. revert s. induction n as [|n IH]; simpl; intros s H; [auto|].
  intros o s1 Hno Hrun. destruct (H o s1 Hno Hrun) as (s2 & Hs & Hu).
  eauto.
Qed.

(** The state in which thread [t] resumes after the others ran. *)
Lemma resume free base progs t others s s1 th p :
  Inv free base progs s → loggerInstance s = Some p →
  threads s !! t = Some th →
  t ∉ others → run others s = Some s1 →
  Inv free base progs s1 ∧ loggerInstance s1 = Some p
  ∧ threads s1 !! t = Some th
  ∧ events_of t (hist s1) = events_of t (hist s).
Proof.
  intros I Hp Hth Hno Hr.
  destruct (run_others _ _ _ _ Hno Hr) as [Hth1 Hev1].
  split; [by eapply Inv_run|]. split; [by eapply Inv_run_slot|].
  split; [congruence|done].
Qed.

(** C5. A thread that holds the lock and is about to re-read the slot
    (line 19), in a state where the slot is already set to [p]: whatever
    the other threads do meanwhile, its next three actions are that read,
    which finds [p]; [mtx.unlock()]; and [return loggerInstance], which
    returns [p].  It does not run the constructor: [p] remains the only
    object constructed. *)
Theorem second_check_returns_existing free base progs sch s t th p :
  run sch (init free base progs) = Some s →
  threads s !! t = Some th → at_pc th = L19 →
  loggerInstance s = Some p →
  unblocked 3 t s (λ s',
    threads s' !! t = Some (Thread Idle (todo th) (rets th ++ [Some p]))
    ∧ events_of t (hist s')
      = events_of t (hist s) ++ [EvRead 19 (Some p); EvUnlock; EvRead 24 (Some p)]
    ∧ constructed (hist s') = [p]
    ∧ mtx s' ≠ Some t).
Proof.
  intros Hrun Hth Hpc Hp.
  pose proof (Inv_reachable _ _ _ _ _ Hrun) as I.
  intros o1 s1 Hno1 Hr1.
  destruct (resume _ _ _ _ _ _ _ _ _ I Hp Hth Hno1 Hr1) as (I1 & Hp1 & Hth1 & Hev1).
  assert (step t s1 = Some (commit t (goto L22 th) [EvRead 19 (Some p)] s1)) as Hs1.
  { unfold step. by rewrite Hth1, Hpc, Hp1. }
  eexists; split; [exact Hs1|].
  pose proof (Inv_step _ _ _ _ _ _ I1 Hs1) as I2.
  pose proof (step_is_thread _ _ _ Hs1) as Hlt.
  intros o2 s3 Hno2 Hr2.
  destruct (resume _ _ _ t o2 _ s3 (goto L22 th) p I2 Hp1)
    as (I3 & Hp3 & Hth3 & Hev3);
    [by apply list_lookup_insert_eq|done..|].
  simpl in Hev3. rewrite events_of_snoc, decide_True in Hev3 by done.
  assert (step t s3 = Some (commit t (goto L24 (goto L22 th)) [EvUnlock]
                              (set_mtx None s3))) as Hs3.
  { unfold step. by rewrite Hth3. }
  eexists; split; [exact Hs3|].
  pose proof (Inv_step _ _ _ _ _ _ I3 Hs3) as I4.
  pose proof (step_is_thread _ _ _ Hs3) as Hlt3.
  intros o4 s5 Hno4 Hr4.
  destruct (resume _ _ _ t o4 _ s5 (goto L24 (goto L22 th)) p I4 Hp3)
    as (I5 & Hp5 & Hth5 & Hev5);
    [by apply list_lookup_insert_eq|done..|].
  simpl in Hev5. rewrite events_of_snoc, decide_True in Hev5 by done.
  assert (step t s5 = Some (commit t (Thread Idle (todo th) (rets th ++ [Some p]))
                              [EvRead 24 (Some p)] s5)) as Hs5.
  { unfold step. by rewrite Hth5, Hp5. }
  eexists; split; [exact Hs5|].
  pose proof (Inv_step _ _ _ _ _ _ I5 Hs5) as I6.
  pose proof (step_is_thread _ _ _ Hs5) as Hlt5.
  simpl. repeat split.
  - by apply list_lookup_insert_eq.
  - rewrite events_of_snoc, decide_True by done.
    rewrite Hev5, Hev3, Hev1, <- !app_assoc. done.
  - pose proof (Inv_constructed _ _ _ _ I6) as Hc. simpl in Hc.
    by rewrite Hp5 in Hc.
  - intros Hm. destruct (inv_owner _ _ _ _ I6 t Hm) as (th' & Hth' & Hh).
    simpl in Hth'. rewrite list_lookup_insert_eq in Hth' by done.
    by simplify_eq.
Qed.

(** The second thread saw the slot null before the first one set it, and
    now holds the lock. *)
Lemma second_check_returns_existing_witness :
  ∃ s th,
    run ([1; 1] ++ replicate 31 0 ++ [1]) (init 1 7 main) = Some s
    ∧ threads s !! 1 = Some th ∧ at_pc th = L19
    ∧ loggerInstance s = Some 7
    ∧ unblocked 3 1 s (λ s',
        threads s' !! 1 = Some (Thread Idle (todo th) (rets th ++ [Some 7]))
        ∧ events_of 1 (hist s')
          = events_of 1 (hist s) ++ [EvRead 19 (Some 7); EvUnlock; EvRead 24 (Some 7)]
        ∧ constructed (hist s') = [7]
        ∧ mtx s' ≠ Some 1).
Proof.
  eexists _, _.
  split; [vm_compute; reflexivity|].
  split; [reflexivity|]. split; [reflexivity|]. split; [reflexivity|].
  eapply (second_check_returns_existing 1 7 main ([1; 1] ++ replicate 31 0 ++ [1]));
    [vm_compute; reflexivity | reflexivity | reflexivity | reflexivity].
Defined.

(** C6. A call of [getLogger] made when the slot already holds [p]:
    whatever the other threads do meanwhile, and whoever holds the mutex,
    the caller's three actions (entering the call, the read of line 17
    and the read of line 24) are never delayed; the call returns [p], and
    the caller has neither locked nor unlocked the mutex. *)
Theorem fast_path_never_locks free base progs sch s t th k p :
  run sch (init free base progs) = Some s →
  threads s !! t = Some th → at_pc th = Idle → todo th = GetLogger :: k →
  loggerInstance s = Some p →
  unblocked 3 t s (λ s',
    threads s' !! t = Some (Thread Idle k (rets th ++ [Some p]))
    ∧ events_of t (hist s')
      = events_of t (hist s) ++ [EvRead 17 (Some p); EvRead 24 (Some p)]
    ∧ mtx s' ≠ Some t).
Proof.
  intros Hrun Hth Hpc Htd Hp.
  pose proof (Inv_reachable _ _ _ _ _ Hrun) as I.
  intros o1 s1 Hno1 Hr1.
  destruct (resume _ _ _ _ _ _ _ _ _ I Hp Hth Hno1 Hr1) as (I1 & Hp1 & Hth1 & Hev1).
  assert (step t s1 = Some (commit t (Thread L17 k (rets th)) [] s1)) as Hs1.
  { unfold step. by rewrite Hth1, Hpc, Htd. }
  eexists; split; [exact Hs1|].
  pose proof (Inv_step _ _ _ _ _ _ I1 Hs1) as I2.
  pose proof (step_is_thread _ _ _ Hs1) as Hlt.
  intros o2 s3 Hno2 Hr2.
  destruct (resume _ _ _ t o2 _ s3 (Thread L17 k (rets th)) p I2 Hp1)
    as (I3 & Hp3 & Hth3 & Hev3);
    [by apply list_lookup_insert_eq|done..|].
  simpl in Hev3. rewrite app_nil_r in Hev3.
  assert (step t s3 = Some (commit t (goto L24 (Thread L17 k (rets th)))
                              [EvRead 17 (Some p)] s3)) as Hs3.
  { unfold step. by rewrite Hth3, Hp3. }
  eexists; split; [exact Hs3|].
  pose proof (Inv_step _ _ _ _ _ _ I3 Hs3) as I4.
  pose proof (step_is_thread _ _ _ Hs3) as Hlt3.
  intros o4 s5 Hno4 Hr4.
  destruct (resume _ _ _ t o4 _ s5 (goto L24 (Thread L17 k (rets th))) p I4 Hp3)
    as (I5 & Hp5 & Hth5 & Hev5);
    [by apply list_lookup_insert_eq|done..|].
  simpl in Hev5. rewrite events_of_snoc, decide_True in Hev5 by done.
  assert (step t s5 = Some (commit t (Thread Idle k (rets th ++ [Some p]))
                              [EvRead 24 (Some p)] s5)) as Hs5.
  { unfold step. by rewrite Hth5, Hp5. }
  eexists; split; [exact Hs5|].
  pose proof (Inv_step _ _ _ _ _ _ I5 Hs5) as I6.
  pose proof (step_is_thread _ _ _ Hs5) as Hlt5.
  simpl. repeat split.
  - by apply list_lookup_insert_eq.
  - rewrite events_of_snoc, decide_True by done.
    rewrite Hev5, Hev3, Hev1, <- !app_assoc. done.
  - intros Hm. destruct (inv_owner _ _ _ _ I6 t Hm) as (th' & Hth' & Hh).
    simpl in Hth'. rewrite list_lookup_insert_eq in Hth' by done.
    by simplify_eq.
Qed.

(** The second thread of user.cpp calls [getLogger] while the first one,
    having set the slot, still holds the mutex. *)
Lemma fast_path_never_locks_witness :
  ∃ s th,
    run (replicate 29 0) (init 1 7 main) = Some s
    ∧ mtx s = Some 0
    ∧ threads s !! 1 = Some th ∧ at_pc th = Idle
    ∧ todo th = GetLogger :: [Log "message from user2"]
    ∧ loggerInstance s = Some 7
    ∧ unblocked 3 1 s (λ s',
        threads s' !! 1
        = Some (Thread Idle [Log "message from user2"] (rets th ++ [Some 7]))
        ∧ events_of 1 (hist s')
          = events_of 1 (hist s) ++ [EvRead 17 (Some 7); EvRead 24 (Some 7)]
        ∧ mtx s' ≠ Some 1).
Proof.
  eexists _, _.
  split; [vm_compute; reflexivity|].
  split; [reflexivity|].
  split; [reflexivity|]. split; [reflexivity|]. split; [reflexivity|].
  split; [reflexivity|].
  eapply (fast_path_never_locks 1 7 main (replicate 29 0));
    [vm_compute; reflexivity | reflexivity | reflexivity | reflexivity
    | reflexivity].
Defined.

(** ** [Logger::Log] *)

(** The body of [Log] run without interruption. *)
Lemma L13_alone t r : ∀ s th,
  threads s !! t = Some th → at_pc th = L13 r →
  ∃ s', run (replicate (length r + 1) t) s = Some s'
        ∧ cout s' = cout s ++ r
        ∧ threads s' = <[t := goto Idle th]> (threads s)
        ∧ loggerInstance s' = loggerInstance s ∧ mtx s' = mtx s.
Proof.
  induction r as [|c r IH]; intros s th Hth Hpc; simpl.
  - unfold step. rewrite Hth, Hpc. eexists; split; [done|].
    simpl. by rewrite app_nil_r.
  - unfold step at 1. rewrite Hth, Hpc.
    assert (t < length (threads s))%nat as Hlt by by eapply lookup_lt_Some.
    destruct (IH (commit t (goto (L13 r) th) [EvOut 13 c] (put c s))
                 (goto (L13 r) th)) as (s' & Hr & Hc & Hts & Hs & Hm);
      [by apply list_lookup_insert_eq|done|].
    exists s'. split; [done|]. simpl in *.
    rewrite Hc, Hts, <- app_assoc, list_insert_insert_eq. done.
Qed.

(** The body of [Log] run among the actions of other threads. *)
Lemma L13_unblocked t r : ∀ s th,
  threads s !! t = Some th → at_pc th = L13 r →
  unblocked (length r + 1) t s (λ s',
    threads s' !! t = Some (goto Idle th)
    ∧ events_of t (hist s') = events_of t (hist s) ++ (EvOut 13 <$> r)).
Proof.
  induction r as [|c r IH]; intros s th Hth Hpc; simpl;
  intros o s1 Hno Hr;
  destruct (run_others _ _ _ _ Hno Hr) as [Hth1 Hev1];
  rewrite Hth in Hth1;
  assert (t < length (threads s1))%nat as Hlt by (by eapply lookup_lt_Some);
  unfold step; rewrite Hth1, Hpc; (eexists; split; [done|]).
  - simpl. rewrite !app_nil_r. split; [by apply list_lookup_insert_eq|done].
  - eapply unblocked_mono;
      [|apply (IH _ (goto (L13 r) th)); [by apply list_lookup_insert_eq|done]].
    simpl. intros s' [-> ->]. split; [done|].
    rewrite events_of_snoc, decide_True, Hev1, <- app_assoc by done. done.
Qed.

(** C9. A call [Log(m)] sends to standard output the characters of [m]
    followed by one line terminator, and nothing else: run without
    interruption it appends exactly that to [cout]; run among other
    threads, the characters the caller sent are exactly those, in order.
    It hands nothing back to the caller (the list of pointers the caller
    received is unchanged) and touches neither the slot nor the mutex. *)
Theorem Log_writes_line s t th m k :
  threads s !! t = Some th → at_pc th = Idle → todo th = Log m :: k →
  (∃ s', run (replicate (length (log_text m) + 2) t) s = Some s'
         ∧ cout s' = cout s ++ list_ascii_of_string m ++ [newline]
         ∧ threads s' = <[t := Thread Idle k (rets th)]> (threads s)
         ∧ loggerInstance s' = loggerInstance s ∧ mtx s' = mtx s)
  ∧ unblocked (length (log_text m) + 2) t s (λ s',
      threads s' !! t = Some (Thread Idle k (rets th))
      ∧ events_of t (hist s')
        = events_of t (hist s)
          ++ (EvOut 13 <$> list_ascii_of_string m ++ [newline])).
Proof.
  intros Hth Hpc Htd.
  assert (t < length (threads s))%nat as Hlt by by eapply lookup_lt_Some.
  replace (length (log_text m) + 2) with (S (length (log_text m) + 1)) by lia.
  split.
  - simpl. unfold step at 1. rewrite Hth, Hpc, Htd.
    destruct (L13_alone t (log_text m)
                (commit t (Thread (L13 (log_text m)) k (rets th)) [] s)
                (Thread (L13 (log_text m)) k (rets th)))
      as (s' & Hr & Hc & Hts & Hs & Hm); [by apply list_lookup_insert_eq|done|].
    exists s'. split; [done|]. simpl in *.
    rewrite Hc, Hts, list_insert_insert_eq. done.
  - simpl. intros o s1 Hno Hr.
    destruct (run_others _ _ _ _ Hno Hr) as [Hth1 Hev1].
    rewrite Hth in Hth1.
    assert (t < length (threads s1))%nat as Hlt1 by by eapply lookup_lt_Some.
    unfold step. rewrite Hth1, Hpc, Htd. eexists; split; [done|].
    eapply unblocked_mono;
      [|apply (L13_unblocked t (log_text m) _ (Thread (L13 (log_text m)) k (rets th)));
        [by apply list_lookup_insert_eq|done]].
    simpl. intros s' [-> ->]. split; [done|].
    by rewrite app_nil_r, Hev1.
Qed.

Lemma Log_writes_line_witness :
  ∃ s th,
    run (replicate 31 0) (init 1 7 main) = Some s
    ∧ threads s !! 0 = Some th ∧ at_pc th = Idle
    ∧ todo th = Log "message from user1" :: []
    ∧ (∃ s', run (replicate (length (log_text "message from user1") + 2) 0) s = Some s'
         ∧ cout s' = cout s ++ list_ascii_of_string "message from user1" ++ [newline]
         ∧ threads s' = <[0 := Thread Idle [] (rets th)]> (threads s)
         ∧ loggerInstance s' = loggerInstance s ∧ mtx s' = mtx s)
    ∧ unblocked (length (log_text "message from user1") + 2) 0 s (λ s',
        threads s' !! 0 = Some (Thread Idle [] (rets th))
        ∧ events_of 0 (hist s')
          = events_of 0 (hist s)
            ++ (EvOut 13 <$> list_ascii_of_string "message from user1" ++ [newline])).
Proof.
  eexists _, _.
  split; [vm_compute; reflexivity|].
  split; [reflexivity|]. split; [reflexivity|]. split; [reflexivity|].
  apply Log_writes_line; reflexivity.
Defined.

(** ** [Logger::Logger] *)

(** The body of the constructor run without interruption. *)
Lemma Ctor_alone t p r : ∀ s th,
  threads s !! t = Some th → at_pc th = Ctor p r →
  ∃ s', run (replicate (length r + 1) t) s = Some s'
        ∧ cout s' = cout s ++ r
        ∧ threads s' = <[t := goto (L20_store p) th]> (threads s)
        ∧ loggerInstance s' = loggerInstance s ∧ mtx s' = mtx s
        ∧ heap_next s' = heap_next s.
Proof.
  induction r as [|c r IH]; intros s th Hth Hpc; simpl.
  - unfold step. rewrite Hth, Hpc. eexists; split; [done|].
    simpl. by rewrite app_nil_r.
  - unfold step at 1. rewrite Hth, Hpc.
    assert (t < length (threads s))%nat as Hlt by by eapply lookup_lt_Some.
    destruct (IH (commit t (goto (Ctor p r) th) [EvOut 9 c] (put c s))
                 (goto (Ctor p r) th)) as (s' & Hr & Hc & Hts & Hs & Hm & Hn);
      [by apply list_lookup_insert_eq|done|].
    exists s'. split; [done|]. simpl in *.
    rewrite Hc, Hts, <- app_assoc, list_insert_insert_eq. done.
Qed.

Lemma first_call_alone s t th k :
  threads s !! t = Some th → at_pc th = Idle → todo th = GetLogger :: k →
  loggerInstance s = None → mtx s = None → (0 < heap_free s)%nat →
  ∃ s', run (replicate (call_cost GetLogger) t) s = Some s'
        ∧ cout s' = cout s ++ ctor_text
        ∧ loggerInstance s' = Some (heap_next s)
        ∧ mtx s' = None
        ∧ threads s' !! t
          = Some (Thread Idle k (rets th ++ [Some (heap_next s)])).
Proof.
  intros Hth Hpc Htd Hs Hm Hfree.
  assert (t < length (threads s))%nat as Hlt by by eapply lookup_lt_Some.
  change (replicate (call_cost GetLogger) t)
    with ([t; t; t; t; t] ++ replicate (length ctor_text + 1) t ++ [t; t; t]).
  rewrite !run_app.
  cbn [run]. unfold step at 1. rewrite Hth, Hpc, Htd.
  do 3 (unfold step at 1; cbn [threads commit set_mtx set_slot alloc put];
        rewrite list_lookup_insert_eq by (rewrite ?length_insert; done);
        cbn [at_pc goto mtx loggerInstance heap_free commit set_mtx set_slot
             alloc put];
        rewrite ?Hs, ?Hm).
  unfold step at 1; cbn [threads commit set_mtx set_slot alloc put];
        rewrite list_lookup_insert_eq by (rewrite ?length_insert; done);
        cbn [at_pc goto mtx loggerInstance heap_free commit set_mtx set_slot
             alloc put].
  destruct (heap_free s) as [|n] eqn:Hn; [lia|].
  cbn [mbind option_bind heap_next commit set_mtx alloc].
  rewrite run_app.
  match goal with |- context [run (replicate _ t) ?x] => set (s5 := x) end.
  edestruct (Ctor_alone t (heap_next s) ctor_text s5)
    as (s6 & Hr6 & Hc6 & Ht6 & Hs6 & Hm6 & Hn6);
    [subst s5; cbn [threads commit alloc set_mtx];
     apply list_lookup_insert_eq; by rewrite ?length_insert
    |reflexivity|].
  rewrite Hr6. cbn [mbind option_bind run].
  assert (t < length (threads s6))%nat as Hlt6.
  { rewrite Ht6. subst s5. cbn [threads commit alloc set_mtx].
    by rewrite ?length_insert. }
  pose proof (lookup_lt_is_Some_2 _ _ Hlt6) as [th6 Hth6].
  pose proof Hth6 as Hth6'. rewrite Ht6 in Hth6'.
  rewrite list_lookup_insert_eq in Hth6'
    by (subst s5; cbn [threads commit alloc set_mtx]; by rewrite ?length_insert).
  injection Hth6' as <-.
  unfold step at 1. rewrite Hth6. cbn [at_pc goto].
  do 2 (unfold step at 1; cbn [threads commit set_mtx set_slot alloc put];
        rewrite list_lookup_insert_eq by (rewrite ?length_insert; done);
        cbn [at_pc goto mtx loggerInstance heap_free commit set_mtx set_slot
             alloc put]).
  eexists; split; [reflexivity|].
  cbn [cout loggerInstance mtx threads commit set_mtx set_slot alloc put
       todo rets goto].
  rewrite Hc6. subst s5. cbn [cout commit set_mtx alloc].
  repeat split. apply list_lookup_insert_eq. by rewrite ?length_insert.
Qed.

Lemma later_call_alone s t th k p :
  threads s !! t = Some th → at_pc th = Idle → todo th = GetLogger :: k →
  loggerInstance s = Some p →
  ∃ s', run [t; t; t] s = Some s'
        ∧ cout s' = cout s ∧ loggerInstance s' = Some p ∧ mtx s' = mtx s
        ∧ threads s' !! t = Some (Thread Idle k (rets th ++ [Some p])).
Proof.
  intros Hth Hpc Htd Hs.
  assert (t < length (threads s))%nat as Hlt by by eapply lookup_lt_Some.
  cbn [run]. unfold step at 1. rewrite Hth, Hpc, Htd.
  do 2 (unfold step at 1; cbn [threads commit];
        rewrite list_lookup_insert_eq by (rewrite ?length_insert; done);
        cbn [at_pc goto loggerInstance commit]; rewrite ?Hs).
  eexists; split; [reflexivity|].
  cbn [cout loggerInstance mtx threads commit todo rets goto].
  repeat split; try done.
  apply list_lookup_insert_eq. by rewrite ?length_insert.
Qed.

(** C10. A caller about to call [getLogger].  If no [Logger] exists yet
    and the call runs on its own, it sends ["New instance created."] and a
    line break to standard output before it returns the new object.  If a
    [Logger] exists, that line has been printed exactly once, the call run
    on its own leaves standard output as it is, and whatever any thread
    does later the constructor prints nothing more. *)
Theorem constructor_line_once free base progs sch s t th k :
  run sch (init free base progs) = Some s →
  threads s !! t = Some th → at_pc th = Idle → todo th = GetLogger :: k →
  (loggerInstance s = None → mtx s = None → (0 < heap_free s)%nat →
     ∃ s', run (replicate (call_cost GetLogger) t) s = Some s'
           ∧ cout s'
             = cout s ++ list_ascii_of_string "New instance created." ++ [newline]
           ∧ loggerInstance s' = Some (heap_next s)
           ∧ threads s' !! t
             = Some (Thread Idle k (rets th ++ [Some (heap_next s)])))
  ∧ (∀ p, loggerInstance s = Some p →
       printed 9 (hist s)
       = list_ascii_of_string "New instance created." ++ [newline]
       ∧ (∃ s', run [t; t; t] s = Some s' ∧ cout s' = cout s
                ∧ threads s' !! t = Some (Thread Idle k (rets th ++ [Some p])))
       ∧ ∀ sch' s', run sch' s = Some s' →
           printed 9 (hist s') = printed 9 (hist s)).
Proof.
  intros Hrun Hth Hpc Htd.
  pose proof (Inv_reachable _ _ _ _ _ Hrun) as I.
  split.
  - intros Hs Hm Hfree.
    destruct (first_call_alone s t th k) as (s' & ? & ? & ? & ? & ?); try done.
    by exists s'.
  - intros p Hp.
    assert (∀ s1, Inv free base progs s1 → loggerInstance s1 = Some p →
                  printed 9 (hist s1) = ctor_text) as Hline.
    { intros s1 I1 Hp1. pose proof (inv_built _ _ _ _ I1) as Hb.
      rewrite Hp1 in Hb. by destruct Hb. }
    split; [by apply Hline|]. split.
    + destruct (later_call_alone s t th k p) as (s' & ? & ? & ? & ? & ?);
        try done.
      by exists s'.
    + intros sch' s' Hrun'. rewrite (Hline s) by done.
      apply Hline; [by eapply Inv_run|by eapply Inv_run_slot].
Qed.

(** The first thread of user.cpp, before and after its own call. *)
Lemma constructor_line_once_witness :
  ∃ th,
    run [] (init 1 7 main) = Some (init 1 7 main)
    ∧ threads (init 1 7 main) !! 0 = Some th
    ∧ at_pc th = Idle ∧ todo th = GetLogger :: [Log "message from user1"]
    ∧ (loggerInstance (init 1 7 main) = None → mtx (init 1 7 main) = None →
       (0 < heap_free (init 1 7 main))%nat →
       ∃ s', run (replicate (call_cost GetLogger) 0) (init 1 7 main) = Some s'
             ∧ cout s'
               = cout (init 1 7 main)
                 ++ list_ascii_of_string "New instance created." ++ [newline]
             ∧ loggerInstance s' = Some (heap_next (init 1 7 main))
             ∧ threads s' !! 0
               = Some (Thread Idle [Log "message from user1"]
                         (rets th ++ [Some (heap_next (init 1 7 main))])))
    ∧ (∀ p, loggerInstance (init 1 7 main) = Some p →
         printed 9 (hist (init 1 7 main))
         = list_ascii_of_string "New instance created." ++ [newline]
         ∧ (∃ s', run [0; 0; 0] (init 1 7 main) = Some s'
                  ∧ cout s' = cout (init 1 7 main)
                  ∧ threads s' !! 0
                    = Some (Thread Idle [Log "message from user1"]
                              (rets th ++ [Some p])))
         ∧ ∀ sch' s', run sch' (init 1 7 main) = Some s' →
             printed 9 (hist s') = printed 9 (hist (init 1 7 main))).
Proof.
  eexists.
  split; [reflexivity|]. split; [reflexivity|]. split; [reflexivity|].
  split; [reflexivity|].
  apply (constructor_line_once 1 7 main []); reflexivity.
Defined.

(** ** The two threads of user.cpp *)














(** Either line can come first. *)
Example user1_logs_first :
  cout <$> run_ins (replicate 15 0 ++ replicate 7 1) (init 1 7 main)
  = Some (ctor_text ++ log_text "message from user1"
                    ++ log_text "message from user2").
Proof. vm_compute. reflexivity. Qed.

Example user2_logs_first :
  cout <$> run_ins (replicate 11 0 ++ replicate 7 1 ++ replicate 4 0)
             (init 1 7 main)
  = Some (ctor_text ++ log_text "message from user2"
                    ++ log_text "message from user1").
Proof. vm_compute. reflexivity. Qed.

(** ** Synchronisation order *)

(** Whatever happens before [j] reaches it by a last edge: from an earlier
    action of the same thread, or from an [unlock] into a [lock]. *)
Lemma happens_before_last h i j :
  happens_before h i j →
  ∃ k t e u e', (k < j)%nat ∧ h !! k = Some (t, e) ∧ h !! j = Some (u, e')
                ∧ (t = u ∨ e' = EvLock).
Proof.
  induction 1 as [i j t a b Hlt Hi Hj|i j t u Hlt Hi Hj|i k j _ _ _ IH].
  - exists i, t, a, t, b. auto.
  - exists i, t, EvUnlock, u, EvLock. auto.
  - exact IH.
Qed.

(** C3 fails on the code.  In this execution of [main] the store of line
    20 by the first thread (position 26 of the history) and the read of
    line 17 by the second thread (position 29) access [loggerInstance],
    the read returns the pointer stored, and the store does not happen
    before the read: the second thread has taken no lock and the slot is a
    plain pointer.  The two accesses form a data race. *)
Theorem unlocked_read_races_with_store :
  ∃ s, run racy_schedule (init 1 7 main) = Some s
       ∧ hist s !! 26 = Some (0, EvWrite 7)
       ∧ hist s !! 29 = Some (1, EvRead 17 (Some 7))
       ∧ ¬ happens_before (hist s) 26 29.
Proof.
  eexists. split; [vm_compute; reflexivity|].
  split; [reflexivity|]. split; [reflexivity|].
  intros (k & t & e & u & e' & Hlt & Hk & Hj & Hor)%happens_before_last.
  cbn in Hj. injection Hj as <- <-.
  destruct Hor as [->|]; [|done].
  do 29 (destruct k as [|k]; [cbn in Hk; discriminate Hk|]). lia.
Qed.

(** ** A failed construction *)

(** A thread whose call was left by an exception keeps the mutex for
    ever, the slot stays null and no call of [getLogger] ever returns. *)
Lemma Thrown_forever free base progs s t th :
  Inv free base progs s →
  threads s !! t = Some th → at_pc th = Thrown →
  ∀ sch s', run sch s = Some s' →
    threads s' !! t = Some th ∧ mtx s' = Some t ∧ loggerInstance s' = None
    ∧ ∀ t' th', threads s' !! t' = Some th' → rets th' = [].
Proof.
  intros I Hth Hpc sch. revert s I Hth.
  induction sch as [|t' sch IH]; simpl; intros s I Hth s' H.
  - simplify_eq. split; [done|].
    split; [apply (inv_holds _ _ _ _ I _ _ Hth); by rewrite Hpc|].
    assert (loggerInstance s' = None) as Hn
      by (apply (inv_null _ _ _ _ I _ _ Hth); by rewrite Hpc).
    split; [done|]. intros t' th' Hth'.
    destruct (rets th') as [|v r] eqn:Hr; [done|].
    destruct (inv_rets _ _ _ _ I _ _ v Hth') as [[x ->] ?];
      [rewrite Hr; by left|congruence].
  - destruct (step t' s) as [s1|] eqn:E; [|done].
    eapply (IH s1); [by eapply Inv_step| |done].
    destruct (decide (t = t')) as [<-|Hne].
    + unfold step in E. rewrite Hth, Hpc in E. done.
    + destruct (step_other t t' s s1 Hne E) as [-> _]. done.
Qed.

(** C4 fails on the code.  With no room in the free store, the first of
    two callers reaches [new Logger()], which throws.  The slot is still
    null, as the claim says, but the mutex is still locked, by a thread
    that will never unlock it: in every continuation it stays locked, the
    other caller cannot get past [mtx.lock()], and no call ever returns. *)
Theorem bad_alloc_leaves_mutex_locked :
  ∃ s, run [0; 0; 0; 0; 0] (init 0 7 (callers 2)) = Some s
       ∧ at_pc <$> threads s !! 0 = Some Thrown
       ∧ loggerInstance s = None
       ∧ mtx s = Some 0
       ∧ ∀ sch s', run sch s = Some s' →
           mtx s' = Some 0 ∧ loggerInstance s' = None
           ∧ (length sch ≤ 2)%nat
           ∧ ∀ t th, threads s' !! t = Some th → rets th = [].
Proof.
  eexists. split; [vm_compute; reflexivity|].
  split; [reflexivity|]. split; [reflexivity|]. split; [reflexivity|].
  intros sch s' Hrun.
  match type of Hrun with run _ ?s0 = _ => set (s := s0) in * end.
  assert (Inv 0 7 (callers 2) s) as I.
  { apply (Inv_reachable 0 7 (callers 2) [0; 0; 0; 0; 0]).
    vm_compute; reflexivity. }
  destruct (Thrown_forever _ _ _ s 0 _ I eq_refl eq_refl sch s' Hrun)
    as (_ & Hm & Hn & Hr).
  split; [done|]. split; [done|]. split; [|done].
  clear I Hm Hn Hr. subst s.
  destruct sch as [|a [|b [|c sch]]]; simpl; try lia. exfalso.
  destruct a as [|[|a]]; [done| |done].
  destruct b as [|[|b]]; [done| |done].
  destruct c as [|[|c]]; done.
Qed.

(** ** Order of the output *)

Lemma Ordered_init free base progs :
  Forall gets_first progs → Ordered (init free base progs).
Proof.
  intros Hp. split; try done.
  apply Forall_lookup. intros t th (Hpc & Hr & Hk)%init_thread.
  unfold has_logger. rewrite Hpc. intros _.
  eapply Forall_lookup in Hp; eauto.
Qed.

Lemma Ordered_step free base progs t s s' :
  Inv free base progs s → Ordered s → step t s = Some s' → Ordered s'.
Proof.
  intros I [Ht Hs Ho] H.
  pose proof (step_is_thread _ _ _ H) as Hlt.
  split.
  - apply Forall_lookup. intros t' th' Hth'.
    pose proof (λ th, proj1 (Forall_lookup _ _) Ht t' th) as Ht'.
    pose proof (λ th, proj1 (Forall_lookup _ _) Ht t th) as Htt.
    unfold has_logger in *.
    step_cases H; simpl in *;
    apply list_lookup_insert_Some in Hth' as [(<- & <- & _)|(Hne & Hth')];
    try (by apply Ht'); simpl; try done;
    specialize (Htt _ eq_refl);
    repeat match goal with
    | E : at_pc _ = _ |- _ => rewrite E in Htt
    | E : todo _ = _ |- _ => rewrite E in Htt
    end; simpl in *; try done.
    intros Hr. by apply app_eq_nil in Hr as [_ ?].
  - intros Hn.
    step_cases H; simpl in *;
    rewrite ?app_nil_r, ?printed_snoc; simpl; rewrite ?app_nil_r;
    try (by apply Hs); try congruence.
    exfalso.
    match goal with
    | E : threads s !! t = Some ?th |- _ =>
      pose proof (proj1 (Forall_lookup _ _) Ht t th E) as Hh;
      pose proof (λ v, inv_rets _ _ _ _ I _ _ v E) as Hr
    end.
    unfold has_logger in Hh.
    match goal with E : at_pc _ = _ |- _ => rewrite E in Hh end.
    match goal with
    | E : threads s !! t = Some ?th |- _ => destruct (rets th) as [|v r]
    end; [done|].
    destruct (Hr v) as [[x ->] ?]; [by left|congruence].
  - step_cases H; simpl in *;
    rewrite ?app_nil_r, ?printed_snoc, ?output_snoc; simpl;
    rewrite ?app_nil_r; try done.
    + match goal with
      | E : threads s !! t = Some _ |- _ =>
        pose proof (inv_null _ _ _ _ I _ _ E) as Hnull
      end.
      match goal with E : at_pc _ = _ |- _ => rewrite E in Hnull end.
      rewrite Ho, (Hs (Hnull eq_refl)), !app_nil_r. done.
    + by rewrite Ho, app_assoc.
Qed.

Lemma Ordered_reachable free base progs sch s :
  Forall gets_first progs →
  run sch (init free base progs) = Some s → Ordered s.
Proof.
  intros Hp.
  assert (∀ s0, Inv free base progs s0 → Ordered s0 →
                run sch s0 = Some s → Ordered s) as Hgen.
  { induction sch as [|t sch IH]; simpl; intros s0 I O H.
    - by simplify_eq.
    - destruct (step t s0) as [s1|] eqn:E; [|done].
      eapply IH; [by eapply Inv_step| by eapply Ordered_step |done]. }
  apply Hgen; [apply Inv_init|by apply Ordered_init].
Qed.

(** The actions in the history were made by existing threads. *)
Lemma hist_threads free base progs sch s t e :
  run sch (init free base progs) = Some s →
  (t, e) ∈ hist s → (t < length progs)%nat.
Proof.
  assert (∀ s0, ((t, e) ∈ hist s0 → t < length (threads s0))%nat →
                run sch s0 = Some s →
                ((t, e) ∈ hist s → t < length (threads s))%nat) as Hgen.
  { induction sch as [|t' sch IH]; simpl; intros s0 H0 H.
    - by simplify_eq.
    - destruct (step t' s0) as [s1|] eqn:E; [|done].
      apply (IH s1); [|done].
      pose proof (step_is_thread _ _ _ E) as Hlt.
      rewrite (step_length _ _ _ E). clear IH H.
      step_cases E; simpl; rewrite ?app_nil_r; try done;
      intros [Hin|Hin%list_elem_of_singleton]%elem_of_app; auto;
      by simplify_eq. }
  intros Hrun Hin. rewrite <- (inv_length _ _ _ _ (Inv_reachable _ _ _ _ _ Hrun)).
  eapply Hgen; [|done..]. simpl. by intros ?%elem_of_nil.
Qed.

Lemma logged_shuffle h :
  (∀ t e, (t, e) ∈ h → t < 2)%nat →
  shuffle (logged 0 h) (logged 1 h) (printed 13 h).
Proof.
  induction h as [|[t e] h IH]; intros Hlt; [constructor|].
  assert (shuffle (logged 0 h) (logged 1 h) (printed 13 h)) as IH'.
  { apply IH. intros t' e' Hin. apply (Hlt t' e'). by right. }
  assert (t < 2)%nat as Ht by (apply (Hlt t e); by left).
  unfold logged, events_of, printed in *. simpl.
  destruct e as [| | | | | |l c]; simpl;
    try (by repeat (destruct (decide _); simpl)).
  do 13 (destruct l as [|l];
         [simpl; by repeat (destruct (decide _); simpl)|]).
  destruct l as [|l]; simpl.
  - destruct t as [|[|t]]; simpl; [by constructor|by constructor|lia].
  - by repeat (destruct (decide _); simpl; try lia).
Qed.

(** A thread that has finished printed the texts of its [Log] calls. *)
Lemma finished_logged free base progs sch s t th k :
  run sch (init free base progs) = Some s →
  threads s !! t = Some th → progs !! t = Some k → finished th →
  logged t (hist s) = texts k.
Proof.
  intros Hrun Hth Hk [Hpc Htd].
  pose proof (inv_logged _ _ _ _ (Inv_reachable _ _ _ _ _ Hrun) _ _ _ Hth Hk) as Hl.
  rewrite Hpc, Htd in Hl. simpl in Hl. by rewrite !app_nil_r in Hl.
Qed.

Lemma mutex_free_when_finished free base progs s :
  Inv free base progs s → all_finished s → mtx s = None.
Proof.
  intros I Hfin. destruct (mtx s) as [o|] eqn:Hm; [|done].
  destruct (inv_owner _ _ _ _ I _ Hm) as (th & Hth & Hh).
  eapply Forall_lookup in Hfin as [Hpc _]; [|done].
  by rewrite Hpc in Hh.
Qed.

(** ** Further properties of the code *)

(** X1. Mutual exclusion: in every reachable state at most one thread is
    between [mtx.lock()] (line 18) and [mtx.unlock()] (line 22), and that
    thread is the owner of the mutex. *)
Theorem critical_section_exclusive free base progs sch s t1 t2 th1 th2 :
  run sch (init free base progs) = Some s →
  threads s !! t1 = Some th1 → threads s !! t2 = Some th2 →
  holds (at_pc th1) = true → holds (at_pc th2) = true →
  t1 = t2 ∧ mtx s = Some t1.
Proof.
  intros Hrun H1 H2 Hh1 Hh2.
  pose proof (Inv_reachable _ _ _ _ _ Hrun) as I.
  split; [by eapply Inv_mutex|by eapply inv_holds].
Qed.

(** Both threads want the lock; the first has it and is inside the
    constructor. *)
Lemma critical_section_exclusive_witness :
  ∃ s th,
    run [0; 0; 0; 0; 0; 0; 1; 1] (init 1 7 main) = Some s
    ∧ threads s !! 0 = Some th ∧ holds (at_pc th) = true
    ∧ (0 = 0 ∧ mtx s = Some 0).
Proof.
  eexists _, _. split; [vm_compute; reflexivity|].
  split; [reflexivity|]. split; [reflexivity|].
  eapply (critical_section_exclusive 1 7 main [0; 0; 0; 0; 0; 0; 1; 1]);
    [vm_compute; reflexivity | reflexivity | reflexivity | reflexivity
    | reflexivity].
Defined.

(** X2. No deadlock and no endless run, for any number of threads each
    making any number of calls of [getLogger]: with room in the free
    store for the [Logger], an execution takes at most as many actions as
    one uncontended first call, for each call; and in every reachable
    state either some thread can move or every thread has made all its
    calls. *)
Theorem getLogger_calls_run_to_completion free base progs sch s :
  (0 < free)%nat →
  Forall (Forall (eq GetLogger)) progs →
  run sch (init free base progs) = Some s →
  (length sch ≤ call_cost GetLogger * sum_list_with length progs)%nat
  ∧ ((∃ t s', step t s = Some s') ∨ all_finished s).
Proof.
  intros Hfree Hget Hrun. split.
  - pose proof (run_work _ _ _ Hrun) as Hw.
    rewrite total_work_init in Hw.
    assert (sum_list_with (sum_list_with call_cost) progs
            = call_cost GetLogger * sum_list_with length progs)%nat as Heq.
    { clear Hrun Hw.
      induction Hget as [|k progs Hk _ IH]; [by rewrite Nat.mul_0_r|].
      cbn [sum_list_with]. rewrite IH, Nat.mul_add_distr_l. f_equal.
      induction Hk as [|c k <- _ IHk]; [by rewrite Nat.mul_0_r|].
      cbn [sum_list_with length]. by rewrite IHk, Nat.mul_succ_r, Nat.add_comm. }
    rewrite Heq in Hw. lia.
  - eapply Inv_progress; [by eapply Inv_reachable|by eapply NoThrow_reachable].
Qed.

(** The first thread calls twice, the second once; the second is stopped
    at [mtx.lock()] while the first constructs. *)
Lemma getLogger_calls_run_to_completion_witness :
  ∃ s, Forall (Forall (eq GetLogger)) [[GetLogger; GetLogger]; [GetLogger]]
       ∧ run [0; 0; 0; 0; 0; 0; 1; 1]
             (init 1 7 [[GetLogger; GetLogger]; [GetLogger]]) = Some s
       ∧ (length [0; 0; 0; 0; 0; 0; 1; 1]
          ≤ call_cost GetLogger
            * sum_list_with length [[GetLogger; GetLogger]; [GetLogger]])%nat
       ∧ ((∃ t s', step t s = Some s') ∨ all_finished s).
Proof.
  eexists. split; [by repeat constructor|].
  split; [vm_compute; reflexivity|].
  apply (getLogger_calls_run_to_completion 1 7
           [[GetLogger; GetLogger]; [GetLogger]] [0; 0; 0; 0; 0; 0; 1; 1]);
    [lia | by repeat constructor | vm_compute; reflexivity].
Defined.

(** X3. Who owns the mutex.  A thread owns the mutex exactly when it is
    between [mtx.lock()] and [mtx.unlock()] (lines 19-22), or when its
    call was left by the exception of line 20.  So, with room in the free
    store for the [Logger], a thread owns it only between lines 19 and
    22, and [getLogger] never returns with the mutex locked; and in any
    case the mutex is free once every thread has made all its calls. *)
Theorem mutex_owner_is_inside free base progs sch s :
  run sch (init free base progs) = Some s →
  (∀ t th, threads s !! t = Some th →
     (mtx s = Some t ↔ locked_region (at_pc th) = true ∨ at_pc th = Thrown)
     ∧ ((0 < free)%nat →
        (mtx s = Some t ↔ locked_region (at_pc th) = true)))
  ∧ (all_finished s → mtx s = None).
Proof.
  intros Hrun. pose proof (Inv_reachable _ _ _ _ _ Hrun) as I.
  split; [|by apply (mutex_free_when_finished free base progs)].
  intros t th Hth.
  assert (mtx s = Some t
          ↔ locked_region (at_pc th) = true ∨ at_pc th = Thrown) as Hiff.
  { split.
    - intros (th' & Hth' & Hh)%(inv_owner _ _ _ _ I). simplify_eq.
      destruct (at_pc th); simpl in *; auto.
    - intros Hor. apply (inv_holds _ _ _ _ I _ _ Hth).
      destruct Hor as [Hl|Ht]; [by destruct (at_pc th)|by rewrite Ht]. }
  split; [done|]. intros Hfree.
  pose proof (NoThrow_reachable _ _ _ _ _ Hfree Hrun _ _ Hth) as Hno.
  rewrite Hiff. split; [|by left]. by intros [?|?].
Qed.

(** With no room in the free store, the first caller has left
    [getLogger] by the exception and owns the mutex. *)
Lemma mutex_owner_is_inside_witness :
  ∃ s, run [0; 0; 0; 0; 0; 1] (init 0 7 (callers 2)) = Some s
       ∧ (at_pc <$> threads s) = [Thrown; L17]
       ∧ mtx s = Some 0
       ∧ (∀ t th, threads s !! t = Some th →
            (mtx s = Some t ↔ locked_region (at_pc th) = true ∨ at_pc th = Thrown)
            ∧ ((0 < 0)%nat →
               (mtx s = Some t ↔ locked_region (at_pc th) = true)))
       ∧ (all_finished s → mtx s = None).
Proof.
  eexists. split; [vm_compute; reflexivity|].
  split; [reflexivity|]. split; [reflexivity|].
  apply (mutex_owner_is_inside 0 7 (callers 2) [0; 0; 0; 0; 0; 1]).
  vm_compute; reflexivity.
Defined.

(** X4. When no program starts with [Log], the constructor's line comes
    first and in one piece: the output is what the constructor printed
    followed by what the [Log] calls printed; while the slot is null the
    output is a beginning of ["New instance created."] and its line break,
    and once the slot is set the output begins with that whole line. *)
Theorem constructor_line_first free base progs sch s :
  Forall gets_first progs →
  run sch (init free base progs) = Some s →
  cout s = printed 9 (hist s) ++ printed 13 (hist s)
  ∧ match loggerInstance s with
    | None => cout s `prefix_of` ctor_text
    | Some _ => cout s = ctor_text ++ printed 13 (hist s)
    end.
Proof.
  intros Hp Hrun.
  pose proof (Inv_reachable _ _ _ _ _ Hrun) as I.
  pose proof (Ordered_reachable _ _ _ _ _ Hp Hrun) as [_ Hs Ho].
  rewrite (inv_cout _ _ _ _ I), Ho. split; [done|].
  pose proof (inv_built _ _ _ _ I) as Hb.
  destruct (loggerInstance s).
  - destruct Hb as [_ ->]. done.
  - rewrite Hs, app_nil_r by done.
    destruct (owner_pc s) as [[]|]; destruct Hb as [_ Hb];
      first [ rewrite Hb; apply prefix_nil
            | rewrite <- Hb; by eexists
            | by rewrite Hb ].
Qed.

Lemma constructor_line_first_witness :
  ∃ s, Forall gets_first main
       ∧ run torn_schedule (init 1 7 main) = Some s
       ∧ cout s = printed 9 (hist s) ++ printed 13 (hist s)
       ∧ match loggerInstance s with
         | None => cout s `prefix_of` ctor_text
         | Some _ => cout s = ctor_text ++ printed 13 (hist s)
         end.
Proof.
  eexists. split; [by repeat constructor|].
  split; [vm_compute; reflexivity|].
  apply (constructor_line_first 1 7 main torn_schedule);
    [by repeat constructor | vm_compute; reflexivity].
Defined.

(** X5. What [main] of user.cpp leaves behind.  When both threads have
    finished, each has received the same non-null pointer, to the only
    [Logger] constructed; the mutex is free; and the output is the
    constructor's line followed by the characters of
    ["message from user1\n"] and ["message from user2\n"], each message
    in its own order. *)
Theorem main_final_state free base sch s :
  run sch (init free base main) = Some s →
  all_finished s →
  ∃ p rest,
    loggerInstance s = Some p ∧ constructed (hist s) = [p]
    ∧ mtx s = None
    ∧ (rets <$> threads s) = [[Some p]; [Some p]]
    ∧ cout s = list_ascii_of_string "New instance created." ++ [newline] ++ rest
    ∧ shuffle (list_ascii_of_string "message from user1" ++ [newline])
              (list_ascii_of_string "message from user2" ++ [newline]) rest.
Proof.
  intros Hrun Hfin.
  pose proof (Inv_reachable _ _ _ _ _ Hrun) as I.
  pose proof (inv_length _ _ _ _ I) as Hlen. simpl in Hlen.
  destruct (threads s) as [|th0 [|th1 [|]]] eqn:Hts; try done.
  assert (threads s !! 0 = Some th0) as H0 by by rewrite Hts.
  assert (threads s !! 1 = Some th1) as H1 by by rewrite Hts.
  assert (finished th0 ∧ finished th1) as [Hf0 Hf1].
  { unfold all_finished in Hfin. rewrite Hts in Hfin.
    apply Forall_cons_1 in Hfin as [? [? _]%Forall_cons_1]. done. }
  destruct (finished_has_logger free base main sch s 0 th0 user1Logs)
    as (p & Hp & Hc & Hl0 & Hr0); try done; [simpl; lia|].
  destruct (finished_has_logger free base main sch s 1 th1 user2Logs)
    as (p' & Hp' & _ & Hl1 & Hr1); try done; [simpl; lia|].
  assert (p' = p) as -> by congruence.
  exists p, (printed 13 (hist s)).
  split; [done|]. split; [done|].
  split; [by apply (mutex_free_when_finished free base main)|].
  split.
  { simpl in Hl0, Hl1. simpl.
    destruct (rets th0) as [|? [|]]; try done.
    destruct (rets th1) as [|? [|]]; try done.
    apply Forall_cons_1 in Hr0 as [<- _]. apply Forall_cons_1 in Hr1 as [<- _].
    done. }
  pose proof (Ordered_reachable free base main sch s) as [_ _ Ho];
    [by repeat constructor|done|].
  pose proof (inv_built _ _ _ _ I) as Hb. rewrite Hp in Hb.
  destruct Hb as [_ Hb].
  split; [by rewrite (inv_cout _ _ _ _ I), Ho, Hb|].
  pose proof (finished_logged _ _ _ _ _ 0 th0 user1Logs Hrun H0 eq_refl Hf0) as Hlg0.
  pose proof (finished_logged _ _ _ _ _ 1 th1 user2Logs Hrun H1 eq_refl Hf1) as Hlg1.
  replace (list_ascii_of_string "message from user1" ++ [newline])
    with (texts user1Logs) by reflexivity.
  replace (list_ascii_of_string "message from user2" ++ [newline])
    with (texts user2Logs) by reflexivity.
  rewrite <- Hlg0, <- Hlg1. apply logged_shuffle.
  intros t e Hin. by apply (hist_threads free base main sch s t e).
Qed.

Lemma main_final_state_witness :
  ∃ s, run torn_schedule (init 1 7 main) = Some s
       ∧ all_finished s
       ∧ ∃ p rest,
           loggerInstance s = Some p ∧ constructed (hist s) = [p]
           ∧ mtx s = None
           ∧ (rets <$> threads s) = [[Some p]; [Some p]]
           ∧ cout s = list_ascii_of_string "New instance created." ++ [newline] ++ rest
           ∧ shuffle (list_ascii_of_string "message from user1" ++ [newline])
                     (list_ascii_of_string "message from user2" ++ [newline]) rest.
Proof.
  eexists. split; [vm_compute; reflexivity|].
  split; [by repeat constructor|].
  apply (main_final_state 1 7 torn_schedule);
    [vm_compute; reflexivity | by repeat constructor].
Defined.

(** ** The reads under the lock are synchronised *)

Lemma happens_before_app h k i j :
  happens_before h i j → happens_before (h ++ k) i j.
Proof.
  induction 1 as [i j t a b Hlt Hi Hj|i j t u Hlt Hi Hj|i m j _ IH1 _ IH2].
  - eapply hb_sequenced; [done|by apply lookup_app_l_Some..].
  - eapply hb_synchronises; [done|by apply lookup_app_l_Some..].
  - by eapply hb_trans.
Qed.

Lemma Synced_init free base progs : Synced (init free base progs).
Proof. split; simpl; intros; done. Qed.

Lemma Synced_step free base progs t s s' :
  Inv free base progs s → Synced s → step t s = Some s' → Synced s'.
Proof.
  intros I [Hr Hs Hl] H.
  pose proof (step_is_thread _ _ _ H) as Hlt.
  split.
  - (* syn_reads *)
    intros r t0 p Hlook.
    assert (∀ k, hist s !! r = Some (t0, EvRead 19 (Some p)) →
                 ∃ w t', (hist s ++ k) !! w = Some (t', EvWrite p)
                         ∧ happens_before (hist s ++ k) w r) as Hold.
    { intros k (w & t' & Hw & Hhb)%Hr. exists w, t'.
      split; [by apply lookup_app_l_Some|by apply happens_before_app]. }
    step_cases H; simpl in *; rewrite ?app_nil_r; rewrite ?app_nil_r in Hlook;
    try (by apply (Hr r t0 p));
    apply lookup_snoc_Some in Hlook as [[_ Hlook]|[-> Heq]];
    try (by apply Hold); simplify_eq.
    clear Hold.
    destruct (Hs p eq_refl) as (w & t' & Hw & Hdone).
    assert (mtx s = Some t0) as Hm
      by (apply (inv_holds _ _ _ _ I _ _ Heqo); by rewrite Heqp0).
    destruct (Hl _ Hm) as (l & Hlock & Hbefore).
    destruct Hdone as [(th' & Hth' & Hpc')|(u & Hwu & Hu)].
    { assert (mtx s = Some t') as Hm'
        by (apply (inv_holds _ _ _ _ I _ _ Hth'); by rewrite Hpc').
      simplify_eq. congruence. }
    pose proof (Hbefore _ _ Hu) as Hul.
    pose proof (lookup_lt_Some _ _ _ Hlock) as Hll.
    exists w, t'. split; [by apply lookup_app_l_Some|].
    eapply hb_trans; [eapply hb_trans|].
    + eapply (hb_sequenced _ w u); [done|by apply lookup_app_l_Some..].
    + eapply (hb_synchronises _ u l); [done|by apply lookup_app_l_Some..].
    + eapply (hb_sequenced _ l (length (hist s))); [done| |].
      * by apply lookup_app_l_Some.
      * by apply list_lookup_middle.
  - (* syn_store *)
    intros p Hp.
    assert (∀ k th', loggerInstance s = Some p →
              (∀ th, threads s !! t = Some th → at_pc th ≠ L22) →
              ∃ w t', (hist s ++ k) !! w = Some (t', EvWrite p)
                ∧ ((∃ th0, <[t:=th']> (threads s) !! t' = Some th0
                           ∧ at_pc th0 = L22)
                   ∨ (∃ u, (w < u)%nat ∧ (hist s ++ k) !! u = Some (t', EvUnlock))))
      as Hold.
    { intros k th' (w & t' & Hw & Hdone)%Hs Hnot. exists w, t'.
      split; [by apply lookup_app_l_Some|].
      destruct Hdone as [(th0 & Hth0 & Hpc0)|(u & Hwu & Hu)].
      - left. exists th0. split; [|done].
        rewrite list_lookup_insert_ne; [done|].
        intros <-. by eapply Hnot.
      - right. exists u. split; [done|by apply lookup_app_l_Some]. }
    step_cases H; simpl in *; rewrite ?app_nil_r;
    try (exfalso; congruence);
    try (rewrite <- (app_nil_r (hist s)); apply Hold; [congruence|];
         intros th ?; simplify_eq; congruence);
    try (apply Hold; [congruence|]; intros th ?; simplify_eq; congruence).
    + injection Hp as ->. exists (length (hist s)), t.
      split; [by apply list_lookup_middle|].
      left. eexists. split; [by apply list_lookup_insert_eq|done].
    + clear Hold. destruct (Hs p Hp) as (w & t' & Hw & Hdone).
      exists w, t'. split; [by apply lookup_app_l_Some|]. right.
      destruct Hdone as [(th' & Hth' & Hpc')|(u & Hwu & Hu)].
      * assert (mtx s = Some t') as Hm'
          by (apply (inv_holds _ _ _ _ I _ _ Hth'); by rewrite Hpc').
        assert (mtx s = Some t) as Hm
          by (apply (inv_holds _ _ _ _ I _ _ Heqo); by rewrite Heqp0).
        assert (t' = t) as -> by congruence.
        exists (length (hist s)).
        split; [by eapply lookup_lt_Some|by apply list_lookup_middle].
      * exists u. split; [done|by apply lookup_app_l_Some].
  - (* syn_lock *)
    intros o Ho.
    assert (∀ e, mtx s = Some o → e ≠ EvUnlock →
              ∃ l, (hist s ++ [(t, e)]) !! l = Some (o, EvLock)
                ∧ ∀ u t', (hist s ++ [(t, e)]) !! u = Some (t', EvUnlock) →
                          (u < l)%nat) as Hold.
    { intros e (l & Hlock & Hbefore)%Hl Hne. exists l.
      split; [by apply lookup_app_l_Some|].
      intros u t' [[_ Hu]|[_ ?]]%lookup_snoc_Some; [by eapply Hbefore|].
      by simplify_eq. }
    step_cases H; simpl in *; rewrite ?app_nil_r;
    try (by apply Hl); try (by apply Hold).
    injection Ho as <-.
    exists (length (hist s)). split; [by apply list_lookup_middle|].
    intros u t' [[? _]|[_ ?]]%lookup_snoc_Some; [done|by simplify_eq].
Qed.

Lemma Synced_reachable free base progs sch s :
  run sch (init free base progs) = Some s → Synced s.
Proof.
  assert (∀ s0, Inv free base progs s0 → Synced s0 →
                run sch s0 = Some s → Synced s) as Hgen.
  { induction sch as [|t sch IH]; simpl; intros s0 I O H.
    - by simplify_eq.
    - destruct (step t s0) as [s1|] eqn:E; [|done].
      eapply IH; [by eapply Inv_step| by eapply Synced_step |done]. }
  apply Hgen; [apply Inv_init|apply Synced_init].
Qed.

(** X6. The read under the lock is synchronised with the store: whenever
    the read of line 19 finds the slot set, the store of line 20 that set
    it happens before that read, through the storing thread's [unlock]
    and the reading thread's [lock]. *)
Theorem locked_read_after_store free base progs sch s r t p :
  run sch (init free base progs) = Some s →
  hist s !! r = Some (t, EvRead 19 (Some p)) →
  ∃ w t', hist s !! w = Some (t', EvWrite p) ∧ happens_before (hist s) w r.
Proof.
  intros Hrun Hlook.
  by apply (syn_reads _ (Synced_reachable _ _ _ _ _ Hrun) r t p).
Qed.

(** The second caller saw the slot null before the first one stored the
    pointer, then took the lock and read the slot again. *)
Lemma locked_read_after_store_witness :
  ∃ s, run ([1; 1] ++ replicate 31 0 ++ [1; 1]) (init 1 7 main) = Some s
       ∧ hist s !! 31 = Some (1, EvRead 19 (Some 7))
       ∧ ∃ w t', hist s !! w = Some (t', EvWrite 7)
                 ∧ happens_before (hist s) w 31.
Proof.
  eexists. split; [vm_compute; reflexivity|].
  split; [reflexivity|].
  apply (locked_read_after_store 1 7 main
           ([1; 1] ++ replicate 31 0 ++ [1; 1]) _ 31 1 7);
    [vm_compute; reflexivity | reflexivity].
Defined.

(** X7. A failed allocation is never recovered from.  Once a call of
    [getLogger] has been left by the exception of [new], the thread that
    made it owns the mutex in every later state and cannot move; the slot
    stays null, no [Logger] is ever constructed, no call of [getLogger]
    returns to any thread, and no thread waiting at [mtx.lock()] gets
    past it. *)
Theorem failed_allocation_is_permanent free base progs sch s t th sch' s' :
  run sch (init free base progs) = Some s →
  threads s !! t = Some th → at_pc th = Thrown →
  run sch' s = Some s' →
  mtx s' = Some t ∧ step t s' = None
  ∧ loggerInstance s' = None ∧ constructions s' = 0
  ∧ ∀ t' th', threads s' !! t' = Some th' →
      rets th' = [] ∧ (at_pc th' = L18 → step t' s' = None).
Proof.
  intros Hrun Hth Hpc Hrun'.
  pose proof (Inv_reachable _ _ _ _ _ Hrun) as I.
  pose proof (Inv_run _ _ _ _ _ _ I Hrun') as I'.
  destruct (Thrown_forever _ _ _ s t th I Hth Hpc sch' s' Hrun')
    as (Hth' & Hm & Hn & Hr).
  split; [done|]. split; [unfold step; by rewrite Hth', Hpc|].
  split; [done|]. split.
  - pose proof (inv_built _ _ _ _ I') as Hb. unfold owner_pc in Hb.
    rewrite Hn, Hm, Hth' in Hb. simpl in Hb. rewrite Hpc in Hb.
    unfold constructions. by destruct Hb as [-> _].
  - intros t' th' Ht'. split; [by eapply Hr|].
    intros Hpc'. unfold step. by rewrite Ht', Hpc', Hm.
Qed.

Lemma failed_allocation_is_permanent_witness :
  ∃ s th s',
    run [0; 0; 0; 0; 0] (init 0 7 (callers 3)) = Some s
    ∧ threads s !! 0 = Some th ∧ at_pc th = Thrown
    ∧ run [1; 1; 2] s = Some s'
    ∧ mtx s' = Some 0 ∧ step 0 s' = None
    ∧ loggerInstance s' = None ∧ constructions s' = 0
    ∧ ∀ t' th', threads s' !! t' = Some th' →
        rets th' = [] ∧ (at_pc th' = L18 → step t' s' = None).
Proof.
  eexists _, _, _. split; [vm_compute; reflexivity|].
  split; [reflexivity|]. split; [reflexivity|].
  split; [vm_compute; reflexivity|].
  eapply (failed_allocation_is_permanent 0 7 (callers 3) [0; 0; 0; 0; 0] _ 0 _
            [1; 1; 2]);
    [vm_compute; reflexivity | reflexivity | reflexivity
    | vm_compute; reflexivity].
Defined.
